(** * EmoCrypt: the emoji nibble codec, its seeded alphabet shuffle and
      the AESv1 envelope, embedded from [emocrypt.js].

    Strings are JavaScript strings, sequences of UTF-16 code units, and
    numbers that go through the bitwise operators are integers with the
    32-bit wrap-around written out.  Arrays live in a heap of array objects,
    so that copying ([slice]) and writing in place are told apart.  The
    services of the platform that the asynchronous functions await (random
    bytes, AES-GCM) are calls of a program tree, answered by the platform. *)

From stdpp Require Import gmap list.
From Stdlib Require Import ZArith Lia Permutation.
From Stdlib Require String Ascii.
From Stdlib.Strings Require Byte.
Import String.StringSyntax.
Delimit Scope string_scope with string.
Open Scope Z_scope.

(** ** JavaScript numbers under the bitwise operators *)

Module JS.

(** [ToUint32] and [ToInt32] of an integral number. *)
Definition to_uint32 (x : Z) : Z := x mod 2 ^ 32.
Definition to_int32 (x : Z) : Z :=
  let u := x mod 2 ^ 32 in if u <? 2 ^ 31 then u else u - 2 ^ 32.
(** [ToUint8], applied when a number is stored into a [Uint8Array]. *)
Definition to_uint8 (x : Z) : Z := x mod 256.

(** [a ^ b], [a | b], [a & b]: both operands go through [ToInt32]. *)
Definition xor (a b : Z) : Z := to_int32 (Z.lxor (to_int32 a) (to_int32 b)).
Definition or (a b : Z) : Z := to_int32 (Z.lor (to_int32 a) (to_int32 b)).
Definition and (a b : Z) : Z := to_int32 (Z.land (to_int32 a) (to_int32 b)).
(** [a << n], [a >> n], [a >>> n]: the shift count is taken modulo 32. *)
Definition shl (a n : Z) : Z := to_int32 (Z.shiftl (to_int32 a) (n mod 32)).
Definition sar (a n : Z) : Z := Z.shiftr (to_int32 a) (n mod 32).
Definition shr (a n : Z) : Z := Z.shiftr (to_uint32 a) (n mod 32).
(** [Math.imul(a, b)]. *)
Definition imul (a b : Z) : Z := to_int32 (to_uint32 a * to_uint32 b).

(** A number is an IEEE double.  Outside the bitwise operators the source
    only computes non-negative integers and such integers divided by
    2^32, for which rounding to a double is rounding the integer to 53
    significant bits, ties to even. *)
Definition round53 (m : Z) : Z :=
  if m <? 2 ^ 53 then m
  else
    let s := Z.log2 m - 52 in
    let q := m / 2 ^ s in
    let r := m mod 2 ^ s in
    let half := 2 ^ (s - 1) in
    let q' := if r <? half then q
              else if half <? r then q + 1
              else if Z.even q then q else q + 1 in
    q' * 2 ^ s.

End JS.

(** ** Strings *)

(** A JavaScript string: its UTF-16 code units. *)
Definition jsstring := list Z.

Definition is_high_surrogate (u : Z) : bool := (0xD800 <=? u) && (u <=? 0xDBFF).
Definition is_low_surrogate (u : Z) : bool := (0xDC00 <=? u) && (u <=? 0xDFFF).

(** The string iterator, [[...str]]: one string per code point, a
    surrogate pair taken together and a lone surrogate on its own. *)
Fixpoint spread (str : jsstring) : list jsstring :=
  match str with
  | [] => []
  | u :: rest =>
      match rest with
      | v :: rest' =>
          if is_high_surrogate u && is_low_surrogate v
          then [u; v] :: spread rest'
          else [u] :: spread rest
      | [] => [[u]]
      end
  end.

(** The scalar values of a string, as the platform reads a string argument
    of [TextEncoder.encode]: a lone surrogate becomes U+FFFD. *)
Fixpoint scalar_values (str : jsstring) : list Z :=
  match str with
  | [] => []
  | u :: rest =>
      if is_high_surrogate u then
        match rest with
        | v :: rest' =>
            if is_low_surrogate v
            then (0x10000 + (u - 0xD800) * 0x400 + (v - 0xDC00)) :: scalar_values rest'
            else 0xFFFD :: scalar_values rest
        | [] => [0xFFFD]
        end
      else if is_low_surrogate u then 0xFFFD :: scalar_values rest
      else u :: scalar_values rest
  end.

(** The code points of a string, as [codePointAt] and the string iterator
    read them: a surrogate pair is one code point, any other code unit is
    its own. *)
Fixpoint code_points (str : jsstring) : list Z :=
  match str with
  | [] => []
  | u :: rest =>
      match rest with
      | v :: rest' =>
          if is_high_surrogate u && is_low_surrogate v
          then (0x10000 + (u - 0xD800) * 0x400 + (v - 0xDC00)) :: code_points rest'
          else u :: code_points rest
      | [] => [u]
      end
  end.

(** The code units of one code point. *)
Definition utf16_units (cp : Z) : jsstring :=
  if cp <? 0x10000 then [cp]
  else [0xD800 + Z.shiftr (cp - 0x10000) 10; 0xDC00 + Z.land (cp - 0x10000) 0x3FF].

(** *** The platform's UTF-8 encoder and decoder

    [TextEncoder] and [TextDecoder] belong to the platform, not to the
    repository; they are written here after the Encoding standard, the
    decoder as the source constructs it: [new TextDecoder()], that is UTF-8,
    not fatal (a malformed sequence decodes to U+FFFD), a leading byte
    order mark dropped. *)
Module Utf8.

Definition encode_scalar (cp : Z) : list Z :=
  if cp <=? 0x7F then [cp]
  else if cp <=? 0x7FF then
    [Z.shiftr cp 6 + 0xC0; Z.lor 0x80 (Z.land cp 0x3F)]
  else if cp <=? 0xFFFF then
    [Z.shiftr cp 12 + 0xE0;
     Z.lor 0x80 (Z.land (Z.shiftr cp 6) 0x3F);
     Z.lor 0x80 (Z.land cp 0x3F)]
  else
    [Z.shiftr cp 18 + 0xF0;
     Z.lor 0x80 (Z.land (Z.shiftr cp 12) 0x3F);
     Z.lor 0x80 (Z.land (Z.shiftr cp 6) 0x3F);
     Z.lor 0x80 (Z.land cp 0x3F)].

Record state := State {
  code_point : Z;
  bytes_seen : Z;
  bytes_needed : Z;
  lower_boundary : Z;
  upper_boundary : Z
}.

Definition initial : state := State 0 0 0 0x80 0xBF.

Definition between (lo b hi : Z) : bool := (lo <=? b) && (b <=? hi).

(** A byte read while no sequence is open: the new state and the code
    points emitted. *)
Definition lead (b : Z) : state * list Z :=
  if between 0x00 b 0x7F then (initial, [b])
  else if between 0xC2 b 0xDF then (State (Z.land b 0x1F) 0 1 0x80 0xBF, [])
  else if between 0xE0 b 0xEF then
    (State (Z.land b 0xF) 0 2
       (if b =? 0xE0 then 0xA0 else 0x80) (if b =? 0xED then 0x9F else 0xBF), [])
  else if between 0xF0 b 0xF4 then
    (State (Z.land b 0x7) 0 3
       (if b =? 0xF0 then 0x90 else 0x80) (if b =? 0xF4 then 0x8F else 0xBF), [])
  else (initial, [0xFFFD]).

(** One byte through the decoder.  A byte that cannot continue the open
    sequence ends it with U+FFFD and is read again as a first byte. *)
Definition step (st : state) (b : Z) : state * list Z :=
  if bytes_needed st =? 0 then lead b
  else if negb (between (lower_boundary st) b (upper_boundary st)) then
    let '(st', out) := lead b in (st', 0xFFFD :: out)
  else
    let cp := Z.lor (Z.shiftl (code_point st) 6) (Z.land b 0x3F) in
    let seen := bytes_seen st + 1 in
    if seen =? bytes_needed st then (initial, [cp])
    else (State cp seen (bytes_needed st) 0x80 0xBF, []).

Fixpoint run (st : state) (bytes : list Z) : list Z :=
  match bytes with
  | [] => if bytes_needed st =? 0 then [] else [0xFFFD]
  | b :: rest => let '(st', out) := step st b in out ++ run st' rest
  end.

(** [TextEncoder.prototype.encode]. *)
Definition encode (str : jsstring) : list Z :=
  flat_map encode_scalar (scalar_values str).

Definition drop_bom (cps : list Z) : list Z :=
  match cps with
  | cp :: rest => if cp =? 0xFEFF then rest else cps
  | [] => []
  end.

(** [TextDecoder.prototype.decode] of a decoder made by
    [new TextDecoder()]. *)
Definition decode (bytes : list Z) : jsstring :=
  flat_map utf16_units (drop_bom (run initial bytes)).

End Utf8.

(** A string literal of the source, given by the UTF-8 bytes of the
    literal. *)
Definition lit (s : String.string) : jsstring :=
  flat_map utf16_units
    (Utf8.run Utf8.initial
       (map (fun b => Z.of_N (Byte.to_N b)) (String.list_byte_of_string s))).
Arguments lit s%_string.

(** [str.startsWith(prefix)] and [str.slice(n)]. *)
Fixpoint startsWith (str prefix : jsstring) {struct prefix} : bool :=
  match prefix, str with
  | [], _ => true
  | p :: prefix', u :: str' => (u =? p) && startsWith str' prefix'
  | _ :: _, [] => false
  end.

(** [a.slice(start, end)] for arguments that are not negative (on arrays,
    typed arrays and strings alike). *)
Definition slice {A} (start stop : nat) (a : list A) : list A :=
  take (stop - start) (drop start a).

(** ** Values, arrays and the heap *)

(** What an array slot or a [Map] key of the source holds. *)
Inductive value := VUndefined | VString (s : jsstring).

#[global] Instance value_eq_dec : EqDecision value.
Proof. solve_decision. Defined.

#[global] Instance value_countable : Countable value :=
  inj_countable'
    (fun v => match v with VUndefined => None | VString s => Some s end)
    (fun o => match o with None => VUndefined | Some s => VString s end)
    (fun v => match v with VUndefined => eq_refl | VString _ => eq_refl end).

(** [a[i]]: reading past the end gives [undefined]. *)
Definition array_get (a : list value) (i : nat) : value :=
  default VUndefined (a !! i).

(** [a[i] = v]: writing past the end extends the array (the slots in
    between read as [undefined]). *)
Definition array_set (a : list value) (i : nat) (v : value) : list value :=
  if decide (i < length a)%nat then <[i := v]> a
  else a ++ replicate (i - length a) VUndefined ++ [v].

(** Array objects are addressed by their position in the heap; nothing is
    ever freed. *)
Definition ref := nat.
Abbreviation heap := (list (list value)).

Definition deref (h : heap) (r : ref) : list value := default [] (h !! r).

Definition alloc (a : list value) (h : heap) : ref * heap :=
  (length h, h ++ [a]).

(** [array.slice()]: a new array object with the same slots. *)
Definition array_slice (array : ref) (h : heap) : ref * heap :=
  alloc (deref h array) h.

Definition array_write (r : ref) (i : nat) (v : value) (h : heap) : heap :=
  <[r := array_set (deref h r) i v]> h.

(** [[out[i], out[j]] = [out[j], out[i]]]: the right-hand side is read
    first, then [out[i]] and [out[j]] are written in that order. *)
Definition array_swap (out : ref) (i j : nat) (h : heap) : heap :=
  let x := array_get (deref h out) j in
  let y := array_get (deref h out) i in
  array_write out j y (array_write out i x h).

(** ** The base emoji set *)

Definition BASE_EMO : list value :=
  map VString (spread (lit "😀😁😂🤣😃😄😅😆😉😊😋😎😍😘🥰😗")).

(** The module's global [BASE_EMO] is the first array object. *)
Definition BASE_EMO_ref : ref := 0%nat.
Definition initial_heap : heap := [BASE_EMO].

(** ** buildMaps *)

Definition buildMaps (emojiArr : list value) : gmap Z value * gmap value Z :=
  fold_left
    (fun '(encMap, decMap) '(i, e) => (<[i := e]> encMap, <[e := i]> decMap))
    (imap (fun i e => (Z.of_nat i, e)) emojiArr)
    (∅, ∅).

(** [encMap.get(k)]: [undefined] for a key that is not there. *)
Definition map_get (m : gmap Z value) (k : Z) : value :=
  default VUndefined (m !! k).

(** ** Seeded RNG helpers (xmur3 + mulberry32) *)

(** The body of the [for] loop of [xmur3], for the code unit [c]. *)
Definition xmur3_step (h c : Z) : Z :=
  let h := JS.imul (JS.xor h c) 3432918353 in
  JS.or (JS.shl h 13) (JS.shr h 19).

(** The [h] captured by the closure that [xmur3(str)] returns. *)
Definition xmur3 (str : jsstring) : Z :=
  fold_left xmur3_step str (JS.xor 1779033703 (Z.of_nat (length str))).

(** One call of that closure: the number returned and the new [h]. *)
Definition xmur3_call (h : Z) : Z * Z :=
  let h := JS.imul (JS.xor h (JS.shr h 16)) 2246822507 in
  let h := JS.imul (JS.xor h (JS.shr h 13)) 3266489909 in
  let h := JS.xor h (JS.shr h 16) in
  (JS.shr h 0, h).

(** The seed derivation as the specification words it, on unsigned 32-bit
    accumulators; kept apart from [xmur3], to be compared with it. *)
Module SeedSpec.

Definition rotl32 (x n : Z) : Z :=
  Z.lor (Z.shiftl x n mod 2 ^ 32) (Z.shiftr x (32 - n)).

(** XOR the character's code in, multiply by 3432918353 under 32-bit
    wrap-around, rotate left by 13 bits. *)
Definition absorb (acc c : Z) : Z :=
  rotl32 ((Z.lxor acc c * 3432918353) mod 2 ^ 32) 13.

Definition finalize (acc : Z) : Z :=
  let acc := Z.lxor acc (Z.shiftr acc 16) in
  let acc := (acc * 2246822507) mod 2 ^ 32 in
  let acc := Z.lxor acc (Z.shiftr acc 13) in
  let acc := (acc * 3266489909) mod 2 ^ 32 in
  Z.lxor acc (Z.shiftr acc 16).

(** The seed of a sequence of character codes: the accumulator starts from
    [1779033703 XOR] their number and absorbs them one by one. *)
Definition seed_of_codes (codes : list Z) : Z :=
  finalize (fold_left absorb codes (Z.lxor 1779033703 (Z.of_nat (length codes)))).

(** The seed as worded: one step for each character of the passphrase, on
    its code point, from the number of characters. *)
Definition seed (passphrase : jsstring) : Z :=
  seed_of_codes (code_points passphrase).

(** The seed over the UTF-16 code units of the passphrase: one step for
    each code unit, from the number of code units. *)
Definition seed_of_units (passphrase : jsstring) : Z :=
  seed_of_codes passphrase.

End SeedSpec.

(** One call of the closure that [mulberry32(a)] returns, [a] being the
    captured variable: the numerator over 4294967296 of the number
    returned, and the new [a].  The source adds to [a] as a number, without
    truncation to 32 bits. *)
Definition mulberry32_call (a : Z) : Z * Z :=
  let a := JS.round53 (a + 0x6D2B79F5) in
  let t := a in
  let t := JS.imul (JS.xor t (JS.shr t 15)) (JS.or t 1) in
  let t := JS.xor t (t + JS.imul (JS.xor t (JS.shr t 7)) (JS.or t 61)) in
  (JS.shr (JS.xor t (JS.shr t 14)) 0, a).

(** [Math.floor(r * n)] for [r] the number [k / 4294967296]. *)
Definition floor_mul (k n : Z) : Z := JS.round53 (k * n) / 2 ^ 32.

(** ** seededShuffle *)

(** The [for] loop of [seededShuffle] from index [i] down to 1. *)
Fixpoint shuffle_loop (i : nat) (a : Z) (out : ref) (h : heap) : heap :=
  match i with
  | O => h
  | S i' =>
      let '(k, a') := mulberry32_call a in
      let j := Z.to_nat (floor_mul k (Z.of_nat i + 1)) in
      shuffle_loop i' a' out (array_swap out i j h)
  end.

Definition seededShuffle (array : ref) (pass : jsstring) (h : heap) : ref * heap :=
  let seed := fst (xmur3_call (xmur3 pass)) in
  let '(out, h) := array_slice array h in
  (out, shuffle_loop (length (deref h out) - 1) seed out h).

(** ** Errors *)

(** The exceptions of the source, by their [throw] sites, and those of the
    platform calls it makes. *)
Inductive exn :=
| UnknownEmoji (c : jsstring)   (* 'Unknown emoji encountered: ' + c *)
| InvalidLength                 (* 'Invalid emoji string length - must be even number of emojis' *)
| InvalidFormat                 (* 'Invalid encrypted format - must start with AESv1:' *)
| InvalidCharacterError         (* thrown by atob and btoa *)
| RangeError                    (* thrown by TypedArray.prototype.set, and by a call of too many arguments *)
| OperationError.               (* rejection of crypto.subtle.decrypt *)

Inductive result (A : Type) := Ok (a : A) | Err (e : exn).
Arguments Ok {A} a.
Arguments Err {A} e.

Definition bind_result {A B} (r : result A) (f : A -> result B) : result B :=
  match r with Ok a => f a | Err e => Err e end.

(** [arr.map(f)] for an [f] that may throw: the first exception, from left
    to right, is the outcome. *)
Fixpoint map_result {A B} (f : A -> result B) (l : list A) : result (list B) :=
  match l with
  | [] => Ok []
  | x :: l' =>
      bind_result (f x) (fun y =>
      bind_result (map_result f l') (fun ys => Ok (y :: ys)))
  end.

(** ** Core encode and decode *)

(** [encMap.get(hi) + encMap.get(lo)] as [join('')] prints it: [+]
    concatenates when an operand is a string, printing [undefined] by its
    name; of two [undefined] it makes [NaN]. *)
Definition add_joined (a b : value) : jsstring :=
  match a, b with
  | VString s, VString t => s ++ t
  | VString s, VUndefined => s ++ lit "undefined"
  | VUndefined, VString t => lit "undefined" ++ t
  | VUndefined, VUndefined => lit "NaN"
  end.

Definition emojiEncode (str : jsstring) (emojiArr : list value) : jsstring :=
  let '(encMap, _) := buildMaps emojiArr in
  let bytes := Utf8.encode str in
  concat (map (fun b => add_joined (map_get encMap (JS.sar b 4))
                                   (map_get encMap (JS.and b 15))) bytes).

(** The loop that fills [out]: one byte per pair of nibbles. *)
Fixpoint pack_nibbles (nibbles : list Z) : list Z :=
  match nibbles with
  | hi :: lo :: rest => JS.to_uint8 (JS.or (JS.shl hi 4) lo) :: pack_nibbles rest
  | _ => []
  end.

Definition emojiDecode (emojiStr : jsstring) (emojiArr : list value) : result jsstring :=
  let '(_, decMap) := buildMaps emojiArr in
  let chars := spread emojiStr in
  bind_result
    (map_result (fun c => match decMap !! VString c with
                          | None => Err (UnknownEmoji c)
                          | Some v => Ok v
                          end) chars)
    (fun nibbles =>
       if negb (Z.of_nat (length nibbles) mod 2 =? 0) then Err InvalidLength
       else Ok (Utf8.decode (pack_nibbles nibbles))).

(** ** The platform's binary strings: btoa, atob and typed arrays *)

(** [btoa] and [atob] belong to the platform; they are written here after
    the HTML standard (forgiving-base64). *)
Module Base64.

Definition alphabet : jsstring :=
  lit "ABCDEFGHIJKLMNOPQRSTUVWXYZabcdefghijklmnopqrstuvwxyz0123456789+/".

Definition pad : Z := 61.

Definition char (i : Z) : Z := nth (Z.to_nat i) alphabet 0.

Definition index (c : Z) : option Z :=
  if Utf8.between 65 c 90 then Some (c - 65)
  else if Utf8.between 97 c 122 then Some (c - 97 + 26)
  else if Utf8.between 48 c 57 then Some (c - 48 + 52)
  else if c =? 43 then Some 62
  else if c =? 47 then Some 63
  else None.

Fixpoint encode (bytes : list Z) : jsstring :=
  match bytes with
  | [] => []
  | [a] =>
      [char (Z.shiftr a 2); char (Z.shiftl (Z.land a 3) 4); pad; pad]
  | [a; b] =>
      [char (Z.shiftr a 2);
       char (Z.lor (Z.shiftl (Z.land a 3) 4) (Z.shiftr b 4));
       char (Z.shiftl (Z.land b 15) 2); pad]
  | a :: b :: c :: rest =>
      [char (Z.shiftr a 2);
       char (Z.lor (Z.shiftl (Z.land a 3) 4) (Z.shiftr b 4));
       char (Z.lor (Z.shiftl (Z.land b 15) 2) (Z.shiftr c 6));
       char (Z.land c 63)] ++ encode rest
  end.

(** The bytes of a run of 6-bit groups: 24 bits make three bytes; of a
    last group of 18 bits the low 2 are dropped, of 12 bits the low 4. *)
Fixpoint decode (sextets : list Z) : list Z :=
  match sextets with
  | s0 :: s1 :: s2 :: s3 :: rest =>
      let n := ((s0 * 64 + s1) * 64 + s2) * 64 + s3 in
      [Z.shiftr n 16; Z.land (Z.shiftr n 8) 255; Z.land n 255] ++ decode rest
  | [s0; s1; s2] =>
      let n := Z.shiftr ((s0 * 64 + s1) * 64 + s2) 2 in
      [Z.shiftr n 8; Z.land n 255]
  | [s0; s1] => [Z.shiftr (s0 * 64 + s1) 4]
  | _ => []
  end.

Definition is_whitespace (c : Z) : bool :=
  (c =? 9) || (c =? 10) || (c =? 12) || (c =? 13) || (c =? 32).

Definition strip_padding (data : jsstring) : jsstring :=
  if Z.of_nat (length data) mod 4 =? 0 then
    match rev data with
    | p1 :: p2 :: r =>
        if (p1 =? pad) && (p2 =? pad) then rev r
        else if p1 =? pad then rev (p2 :: r) else data
    | _ => data
    end
  else data.

Fixpoint indices (data : jsstring) : option (list Z) :=
  match data with
  | [] => Some []
  | c :: data' =>
      match index c, indices data' with
      | Some i, Some l => Some (i :: l)
      | _, _ => None
      end
  end.

End Base64.

(** [btoa(data)]. *)
Definition btoa (data : jsstring) : result jsstring :=
  if forallb (fun c => c <=? 0xFF) data then Ok (Base64.encode data)
  else Err InvalidCharacterError.

(** [atob(data)]. *)
Definition atob (data : jsstring) : result jsstring :=
  let data := List.filter (fun c => negb (Base64.is_whitespace c)) data in
  let data := Base64.strip_padding data in
  if Z.of_nat (length data) mod 4 =? 1 then Err InvalidCharacterError
  else match Base64.indices data with
       | None => Err InvalidCharacterError
       | Some sextets => Ok (Base64.decode sextets)
       end.

(** [String.fromCharCode(...buf)]: the spread passes every byte of [buf] as
    an argument of the call, and an engine refuses a call of more arguments
    than it has room for with a [RangeError].  [max_args], the largest
    number of arguments the engine takes, belongs to the engine and not to
    the repository. *)
Definition fromCharCode (max_args : nat) (buf : list Z) : result jsstring :=
  if decide (length buf <= max_args)%nat
  then Ok (map (fun b => b mod 65536) buf)
  else Err RangeError.

(** [Uint8Array.from(str, c => c.charCodeAt(0))]: the string is iterated
    by code points and each number stored through [ToUint8]. *)
Definition bytes_of_binary_string (str : jsstring) : list Z :=
  map (fun c => JS.to_uint8 (default 0 (head c))) (spread str).

(** [buf.set(src, offset)] on a [Uint8Array]. *)
Definition typed_set (buf src : list Z) (offset : nat) : result (list Z) :=
  if decide (offset + length src <= length buf)%nat
  then Ok (take offset buf ++ src ++ drop (offset + length src) buf)
  else Err RangeError.

(** ** Asynchronous functions and the platform's cryptography *)

(** The key that [deriveKeyFromPassword] resolves to is a function of its
    arguments alone (PBKDF2 with SHA-256 to a 256-bit AES-GCM key); it is
    kept as those arguments. *)
Record CryptoKey := {
  key_password : list Z;
  key_salt : list Z;
  key_iterations : Z
}.

Definition deriveKeyFromPassword (pass : jsstring) (salt : list Z) : CryptoKey :=
  {| key_password := Utf8.encode pass; key_salt := salt; key_iterations := 100000 |}.

(** An asynchronous computation: it resolves, rejects, or awaits a service
    of the platform and goes on with its answer. *)
Inductive prog (R : Type) : Type :=
| Ret (r : R)
| Throw (e : exn)
| GetRandomValues (n : nat) (k : list Z -> prog R)
| SubtleEncrypt (key : CryptoKey) (iv data : list Z) (k : list Z -> prog R)
| SubtleDecrypt (key : CryptoKey) (iv data : list Z) (k : option (list Z) -> prog R).
Arguments Ret {R} r.
Arguments Throw {R} e.
Arguments GetRandomValues {R} n k.
Arguments SubtleEncrypt {R} key iv data k.
Arguments SubtleDecrypt {R} key iv data k.

Fixpoint bind {A B} (p : prog A) (f : A -> prog B) : prog B :=
  match p with
  | Ret a => f a
  | Throw e => Throw e
  | GetRandomValues n k => GetRandomValues n (fun x => bind (k x) f)
  | SubtleEncrypt key iv data k => SubtleEncrypt key iv data (fun x => bind (k x) f)
  | SubtleDecrypt key iv data k => SubtleDecrypt key iv data (fun x => bind (k x) f)
  end.

Definition lift {A} (r : result A) : prog A :=
  match r with Ok a => Ret a | Err e => Throw e end.

Definition aesEncrypt (max_args : nat) (plaintext password : jsstring) : prog jsstring :=
  GetRandomValues 12 (fun iv =>
  GetRandomValues 16 (fun salt =>
  let key := deriveKeyFromPassword password salt in
  SubtleEncrypt key iv (Utf8.encode plaintext) (fun ct =>
  let buf := replicate (length salt + length iv + length ct) 0 in
  lift (bind_result (typed_set buf salt 0) (fun buf =>
        bind_result (typed_set buf iv (length salt)) (fun buf =>
        bind_result (typed_set buf ct (length salt + length iv)) (fun buf =>
        bind_result (fromCharCode max_args buf) btoa))))))).

Definition aesDecrypt (b64 password : jsstring) : prog jsstring :=
  match atob b64 with
  | Err e => Throw e
  | Ok binary =>
      let raw := bytes_of_binary_string binary in
      let salt := slice 0 16 raw in
      let iv := slice 16 28 raw in
      let ct := drop 28 raw in
      let key := deriveKeyFromPassword password salt in
      SubtleDecrypt key iv ct (fun pt =>
        match pt with
        | None => Throw OperationError
        | Some pt => Ret (Utf8.decode pt)
        end)
  end.

(** ** The EmoCrypt class *)

Record EmoCrypt := {
  emojiSet : ref;
  passphrase : option jsstring  (* [None] is [null] *)
}.

(** [passphrase ? seededShuffle(BASE_EMO, passphrase) : BASE_EMO.slice()]:
    [null] and the empty string are falsy. *)
Definition derive_set (passphrase : option jsstring) (h : heap) : ref * heap :=
  match passphrase with
  | Some (c :: s) => seededShuffle BASE_EMO_ref (c :: s) h
  | _ => array_slice BASE_EMO_ref h
  end.

(** [new EmoCrypt(passphrase)]. *)
Definition new_EmoCrypt (passphrase : option jsstring) (h : heap) : EmoCrypt * heap :=
  let '(set, h) := derive_set passphrase h in
  ({| emojiSet := set; passphrase := passphrase |}, h).

Definition encode (this : EmoCrypt) (text : jsstring) (h : heap) : jsstring :=
  emojiEncode text (deref h (emojiSet this)).

Definition decode (this : EmoCrypt) (emojiText : jsstring) (h : heap) : result jsstring :=
  emojiDecode emojiText (deref h (emojiSet this)).

Definition encryptAndEncode (max_args : nat) (this : EmoCrypt) (text password : jsstring)
    (h : heap) : prog jsstring :=
  let encoded := encode this text h in
  bind (aesEncrypt max_args encoded password) (fun encrypted =>
  Ret (lit "AESv1:" ++ encrypted)).

Definition decryptAndDecode (this : EmoCrypt) (encryptedText password : jsstring) (h : heap)
  : prog jsstring :=
  if negb (startsWith encryptedText (lit "AESv1:")) then Throw InvalidFormat
  else
    bind (aesDecrypt (drop 6 encryptedText) password) (fun decrypted =>
    lift (decode this decrypted h)).

Definition getEmojiSet (this : EmoCrypt) (h : heap) : ref * heap :=
  array_slice (emojiSet this) h.

Definition setPassphrase (this : EmoCrypt) (newPassphrase : option jsstring) (h : heap)
  : EmoCrypt * heap :=
  let '(set, h) := derive_set newPassphrase h in
  ({| emojiSet := set; passphrase := newPassphrase |}, h).

(** ** Runs of an asynchronous function *)

Definition is_byte (b : Z) : Prop := 0 <= b < 256.

(** What the platform was asked and what it answered. *)
Inductive event :=
| Random (n : nat) (bytes : list Z)
| Encrypted (key : CryptoKey) (iv data ciphertext : list Z)
| Decrypted (key : CryptoKey) (iv data : list Z) (plaintext : option (list Z)).

(** [runs p tr r]: the computation [p] settles as [r] after the exchanges
    [tr] with the platform.  [getRandomValues] fills the array it is given
    with bytes; encryption resolves to bytes; decryption resolves to bytes
    or rejects. *)
Inductive runs {R : Type} : prog R -> list event -> result R -> Prop :=
| runs_Ret r : runs (Ret r) [] (Ok r)
| runs_Throw e : runs (Throw e) [] (Err e)
| runs_Random n k bytes tr r :
    length bytes = n -> Forall is_byte bytes ->
    runs (k bytes) tr r ->
    runs (GetRandomValues n k) (Random n bytes :: tr) r
| runs_Encrypt key iv data k ct tr r :
    Forall is_byte ct ->
    runs (k ct) tr r ->
    runs (SubtleEncrypt key iv data k) (Encrypted key iv data ct :: tr) r
| runs_Decrypt key iv data k pt tr r :
    (forall bytes, pt = Some bytes -> Forall is_byte bytes) ->
    runs (k pt) tr r ->
    runs (SubtleDecrypt key iv data k) (Decrypted key iv data pt :: tr) r.

(** ** Well-formed data *)

(** Text: a string of 16-bit code units in which every surrogate is half
    of a pair. *)
Fixpoint well_formed (str : jsstring) : bool :=
  match str with
  | [] => true
  | u :: rest =>
      if is_high_surrogate u then
        match rest with
        | v :: rest' => is_low_surrogate v && well_formed rest'
        | [] => false
        end
      else (0 <=? u) && (u <=? 0xFFFF) && negb (is_low_surrogate u) && well_formed rest
  end.

(** A Unicode scalar value. *)
Definition is_scalar (cp : Z) : Prop :=
  0 <= cp <= 0x10FFFF /\ ~ (0xD800 <= cp <= 0xDFFF).

(** A symbol: a string of one code point. *)
Definition is_symbol (v : value) : Prop :=
  exists cp, is_scalar cp /\ v = VString (utf16_units cp).

(** An alphabet: sixteen symbols, no two alike. *)
Definition is_alphabet (emojiArr : list value) : Prop :=
  length emojiArr = 16%nat /\ NoDup emojiArr /\ Forall is_symbol emojiArr.

(** ** Auxiliary notions of the proofs *)

(** A value of the source's [h] stands for the accumulator [acc] of the
    reference seed derivation when both have the same low 32 bits. *)
Definition stands_for (h acc : Z) : Prop := h mod 2 ^ 32 = acc mod 2 ^ 32.

(** The nibbles of a byte sequence, high before low. *)
Definition nibbles_of (bytes : list Z) : list Z :=
  flat_map (fun b => [b / 16; b mod 16]) bytes.

(** What [emojiDecode] asks of [decMap] for one symbol. *)
Definition lookup_symbol (emojiArr : list value) (c : jsstring) : result Z :=
  match (buildMaps emojiArr).2 !! VString c with
  | None => Err (UnknownEmoji c)
  | Some v => Ok v
  end.

(** The code point of a string of one code point. *)
Definition code_point_of (s : jsstring) : Z :=
  match s with
  | [u; v] => 0x10000 + (u - 0xD800) * 0x400 + (v - 0xDC00)
  | [u] => u
  | _ => 0
  end.

(** Goals about quotients and remainders by constants. *)
Ltac euclid := Z.to_euclidean_division_equations; lia.

(** The slots of [out] after [[out[i], out[j]] = [out[j], out[i]]]. *)
Definition swap_slots (l : list value) (i j : nat) : list value :=
  array_set (array_set l i (array_get l j)) j (array_get l i).

(** The slots of [out] after the loop of [seededShuffle] from [i] down. *)
Fixpoint shuffle_slots (i : nat) (a : Z) (l : list value) : list value :=
  match i with
  | O => l
  | S i' =>
      let '(k, a') := mulberry32_call a in
      let j := Z.to_nat (floor_mul k (Z.of_nat i + 1)) in
      shuffle_slots i' a' (swap_slots l i j)
  end.

(** The slots of the array that [seededShuffle] returns. *)
Definition shuffled (l : list value) (pass : jsstring) : list value :=
  shuffle_slots (length l - 1) (fst (xmur3_call (xmur3 pass))) l.

(** The 6-bit groups of a byte sequence, without the padding. *)
Fixpoint sextets_of (bytes : list Z) : list Z :=
  match bytes with
  | [] => []
  | [a] => [a / 4; a mod 4 * 16]
  | [a; b] => [a / 4; a mod 4 * 16 + b / 16; b mod 16 * 4]
  | a :: b :: c :: rest =>
      [a / 4; a mod 4 * 16 + b / 16; b mod 16 * 4 + c / 64; c mod 64] ++ sextets_of rest
  end.

(** The padding that [btoa] appends. *)
Fixpoint padding_of (bytes : list Z) : jsstring :=
  match bytes with
  | [] => []
  | [_] => [Base64.pad; Base64.pad]
  | [_; _] => [Base64.pad]
  | _ :: _ :: _ :: rest => padding_of rest
  end.

Definition is_sextet (s : Z) : Prop := 0 <= s < 64.

(** A UTF-16 code unit; every string of the language is made of these. *)
Definition is_code_unit (u : Z) : Prop := 0 <= u <= 0xFFFF.

(** * Properties *)

(** ** Loops as folds *)

Section Folds.
Context {A B C : Type}.

Lemma fold_left_related (R : A -> B -> Prop) (f : A -> C -> A) (g : B -> C -> B) :
  (forall a b c, R a b -> R (f a c) (g b c)) ->
  forall l a b, R a b -> R (fold_left f l a) (fold_left g l b).
Proof.
  intros Hstep l. induction l as [|c l IH]; intros a b Hab; cbn [fold_left].
  - exact Hab.
  - apply IH, Hstep, Hab.
Qed.

Lemma fold_left_reaches (P : A -> Prop) (f : A -> C -> A) :
  (forall a c, P (f a c)) ->
  forall l a, l <> [] -> P (fold_left f l a).
Proof.
  intros Hstep l. induction l as [|c l IH]; intros a Hne; [congruence|].
  cbn [fold_left]. destruct l as [|c' l]; [apply Hstep|].
  apply IH. discriminate.
Qed.

End Folds.

(** ** 32-bit arithmetic *)

Section Wrap.

Lemma lxor_mod_pow2 a b n :
  0 <= n -> Z.lxor a b mod 2 ^ n = Z.lxor (a mod 2 ^ n) (b mod 2 ^ n).
Proof.
  intros Hn. apply Z.bits_inj'. intros i Hi.
  rewrite Z.lxor_spec, !Z.testbit_mod_pow2, Z.lxor_spec by lia.
  destruct (i <? n); reflexivity.
Qed.

Lemma lor_mod_pow2 a b n :
  0 <= n -> Z.lor a b mod 2 ^ n = Z.lor (a mod 2 ^ n) (b mod 2 ^ n).
Proof.
  intros Hn. apply Z.bits_inj'. intros i Hi.
  rewrite Z.lor_spec, !Z.testbit_mod_pow2, Z.lor_spec by lia.
  destruct (i <? n); reflexivity.
Qed.

Lemma lxor_range a b n :
  0 <= n -> 0 <= a < 2 ^ n -> 0 <= b < 2 ^ n -> 0 <= Z.lxor a b < 2 ^ n.
Proof.
  intros Hn Ha Hb.
  rewrite <- (Z.mod_small a (2 ^ n)), <- (Z.mod_small b (2 ^ n)) by lia.
  rewrite <- lxor_mod_pow2 by lia. apply Z.mod_pos_bound. lia.
Qed.

Lemma lor_range a b n :
  0 <= n -> 0 <= a < 2 ^ n -> 0 <= b < 2 ^ n -> 0 <= Z.lor a b < 2 ^ n.
Proof.
  intros Hn Ha Hb.
  rewrite <- (Z.mod_small a (2 ^ n)), <- (Z.mod_small b (2 ^ n)) by lia.
  rewrite <- lor_mod_pow2 by lia. apply Z.mod_pos_bound. lia.
Qed.

Lemma shiftr_range x k : 0 <= x -> 0 <= k -> 0 <= Z.shiftr x k <= x.
Proof.
  intros Hx Hk. rewrite Z.shiftr_div_pow2 by lia.
  assert (0 < 2 ^ k) by lia. split.
  - apply Z.div_pos; lia.
  - apply Z.div_le_upper_bound; nia.
Qed.

Lemma shiftl_mod32 a k :
  0 <= k -> Z.shiftl a k mod 2 ^ 32 = Z.shiftl (a mod 2 ^ 32) k mod 2 ^ 32.
Proof.
  intros Hk. rewrite !Z.shiftl_mul_pow2 by lia.
  rewrite Z.mul_mod_idemp_l by lia. reflexivity.
Qed.

Lemma to_int32_u32 x : JS.to_int32 x mod 2 ^ 32 = x mod 2 ^ 32.
Proof.
  unfold JS.to_int32. destruct (x mod 2 ^ 32 <? 2 ^ 31).
  - apply Z.mod_mod. lia.
  - replace (x mod 2 ^ 32 - 2 ^ 32) with (x mod 2 ^ 32 + (-1) * 2 ^ 32) by lia.
    rewrite Z_mod_plus_full. apply Z.mod_mod. lia.
Qed.

Lemma u32_xor a b :
  JS.xor a b mod 2 ^ 32 = Z.lxor (a mod 2 ^ 32) (b mod 2 ^ 32).
Proof.
  unfold JS.xor. rewrite to_int32_u32, lxor_mod_pow2, !to_int32_u32 by lia.
  reflexivity.
Qed.

Lemma u32_or a b :
  JS.or a b mod 2 ^ 32 = Z.lor (a mod 2 ^ 32) (b mod 2 ^ 32).
Proof.
  unfold JS.or. rewrite to_int32_u32, lor_mod_pow2, !to_int32_u32 by lia.
  reflexivity.
Qed.

Lemma u32_imul a b :
  JS.imul a b mod 2 ^ 32 = (a mod 2 ^ 32 * (b mod 2 ^ 32)) mod 2 ^ 32.
Proof. unfold JS.imul, JS.to_uint32. apply to_int32_u32. Qed.

Lemma u32_shl a k :
  0 <= k < 32 -> JS.shl a k mod 2 ^ 32 = Z.shiftl (a mod 2 ^ 32) k mod 2 ^ 32.
Proof.
  intros Hk. unfold JS.shl. rewrite to_int32_u32, (Z.mod_small k 32) by lia.
  rewrite shiftl_mod32, to_int32_u32 by lia. reflexivity.
Qed.

Lemma shr_u32 a k : 0 <= k < 32 -> JS.shr a k = Z.shiftr (a mod 2 ^ 32) k.
Proof.
  intros Hk. unfold JS.shr, JS.to_uint32. rewrite (Z.mod_small k 32) by lia.
  reflexivity.
Qed.

Lemma shr_bounds a k : 0 <= k < 32 -> 0 <= JS.shr a k < 2 ^ 32.
Proof.
  intros Hk. rewrite shr_u32 by lia.
  pose proof (Z.mod_pos_bound a (2 ^ 32) ltac:(lia)).
  pose proof (shiftr_range (a mod 2 ^ 32) k). lia.
Qed.

End Wrap.

(** ** The seed derivation *)

Section Seed.

Lemma absorb_range acc c : 0 <= SeedSpec.absorb acc c < 2 ^ 32.
Proof.
  unfold SeedSpec.absorb, SeedSpec.rotl32.
  set (x := (Z.lxor acc c * 3432918353) mod 2 ^ 32).
  assert (0 <= x < 2 ^ 32) by (apply Z.mod_pos_bound; lia).
  apply lor_range; [lia | apply Z.mod_pos_bound; lia |].
  pose proof (shiftr_range x (32 - 13)). lia.
Qed.

Lemma xmur3_step_absorb h acc c :
  stands_for h acc -> stands_for (xmur3_step h c) (SeedSpec.absorb acc c).
Proof.
  unfold stands_for, xmur3_step. intros Hh.
  rewrite (Z.mod_small (SeedSpec.absorb acc c)) by apply absorb_range.
  unfold SeedSpec.absorb, SeedSpec.rotl32.
  rewrite u32_or, u32_shl, u32_imul, u32_xor, Hh by lia.
  rewrite shr_u32, u32_imul, u32_xor, Hh by lia.
  rewrite <- lxor_mod_pow2 by lia.
  rewrite (Z.mod_small 3432918353) by lia.
  rewrite Z.mul_mod_idemp_l by lia.
  set (x := (Z.lxor acc c * 3432918353) mod 2 ^ 32).
  assert (0 <= x < 2 ^ 32) by (apply Z.mod_pos_bound; lia).
  pose proof (shiftr_range x 19).
  rewrite (Z.mod_small (Z.shiftr x 19)) by lia.
  reflexivity.
Qed.

Lemma xmur3_fold_absorb str h acc :
  stands_for h acc ->
  stands_for (fold_left xmur3_step str h) (fold_left SeedSpec.absorb str acc).
Proof.
  apply (fold_left_related stands_for).
  intros a b c. apply xmur3_step_absorb.
Qed.

Lemma fold_absorb_range str acc :
  str <> [] -> 0 <= fold_left SeedSpec.absorb str acc < 2 ^ 32.
Proof.
  apply (fold_left_reaches (fun x => 0 <= x < 2 ^ 32)).
  intros a c. apply absorb_range.
Qed.

(** One xor-shift of the finalisation. *)
Lemma xorshift_agree h acc k :
  0 <= k < 32 -> 0 <= acc < 2 ^ 32 -> h mod 2 ^ 32 = acc ->
  JS.xor h (JS.shr h k) mod 2 ^ 32 = Z.lxor acc (Z.shiftr acc k)
  /\ 0 <= Z.lxor acc (Z.shiftr acc k) < 2 ^ 32.
Proof.
  intros Hk Hacc Hh. pose proof (shiftr_range acc k).
  split; [| apply lxor_range; lia].
  rewrite u32_xor, shr_u32, Hh by lia.
  rewrite (Z.mod_small (Z.shiftr acc k)) by lia. reflexivity.
Qed.

Lemma xmur3_call_finalize h acc :
  0 <= acc < 2 ^ 32 -> h mod 2 ^ 32 = acc ->
  fst (xmur3_call h) = SeedSpec.finalize acc.
Proof.
  intros Hacc Hh. unfold xmur3_call, SeedSpec.finalize. cbv zeta. cbn [fst].
  destruct (xorshift_agree h acc 16 ltac:(lia) Hacc Hh) as [E1 R1].
  set (h1 := JS.imul (JS.xor h (JS.shr h 16)) 2246822507).
  set (a1 := (Z.lxor acc (Z.shiftr acc 16) * 2246822507) mod 2 ^ 32).
  assert (Ha1 : 0 <= a1 < 2 ^ 32) by (apply Z.mod_pos_bound; lia).
  assert (Hh1 : h1 mod 2 ^ 32 = a1).
  { unfold h1, a1. rewrite u32_imul, E1. reflexivity. }
  destruct (xorshift_agree h1 a1 13 ltac:(lia) Ha1 Hh1) as [E2 R2].
  set (h2 := JS.imul (JS.xor h1 (JS.shr h1 13)) 3266489909).
  set (a2 := (Z.lxor a1 (Z.shiftr a1 13) * 3266489909) mod 2 ^ 32).
  assert (Ha2 : 0 <= a2 < 2 ^ 32) by (apply Z.mod_pos_bound; lia).
  assert (Hh2 : h2 mod 2 ^ 32 = a2).
  { unfold h2, a2. rewrite u32_imul, E2. reflexivity. }
  destruct (xorshift_agree h2 a2 16 ltac:(lia) Ha2 Hh2) as [E3 R3].
  rewrite shr_u32 by lia. rewrite Z.shiftr_0_r. exact E3.
Qed.

End Seed.

(** The seed that [seededShuffle] takes, [xmur3(pass)()], is the reference
    seed of the code units of the passphrase. *)
Lemma xmur3_seed_of_units (pass : jsstring) :
  fst (xmur3_call (xmur3 pass)) = SeedSpec.seed_of_codes pass.
Proof.
  unfold xmur3, SeedSpec.seed_of_codes.
  set (n := Z.of_nat (length pass)).
  assert (Hstart : stands_for (JS.xor 1779033703 n) (Z.lxor 1779033703 n)).
  { unfold stands_for. rewrite u32_xor, <- lxor_mod_pow2 by lia. reflexivity. }
  pose proof (xmur3_fold_absorb pass _ _ Hstart) as Hfold.
  assert (Hrange : 0 <= fold_left SeedSpec.absorb pass (Z.lxor 1779033703 n) < 2 ^ 32).
  { destruct (decide (pass = [])) as [->|Hne].
    - change (0 <= 1779033703 < 2 ^ 32). lia.
    - apply fold_absorb_range, Hne. }
  apply xmur3_call_finalize; [exact Hrange|].
  rewrite Hfold. apply Z.mod_small, Hrange.
Qed.

Lemma xmur3_seed_range (pass : jsstring) : 0 <= fst (xmur3_call (xmur3 pass)) < 2 ^ 32.
Proof. unfold xmur3_call. cbv zeta. cbn [fst]. apply shr_bounds. lia. Qed.

(** ** Bit fields as quotients and remainders *)

Section Bits.

Lemma land_shiftl_low a b k :
  0 <= k -> 0 <= b < 2 ^ k -> Z.land (a * 2 ^ k) b = 0.
Proof.
  intros Hk Hb. apply Z.bits_inj'. intros i Hi.
  rewrite Z.land_spec, Z.bits_0.
  destruct (Z.lt_ge_cases i k) as [Hlt|Hge].
  - rewrite Z.mul_pow2_bits_low by lia. reflexivity.
  - rewrite <- (Z.mod_small b (2 ^ k)) by lia.
    rewrite Z.mod_pow2_bits_high by lia. apply andb_false_r.
Qed.

Lemma lor_disjoint a b k :
  0 <= k -> 0 <= b < 2 ^ k -> Z.lor (a * 2 ^ k) b = a * 2 ^ k + b.
Proof.
  intros Hk Hb. pose proof (land_shiftl_low a b k Hk Hb) as H0.
  rewrite <- Z.lxor_lor by exact H0. symmetry. apply Z.add_nocarry_lxor, H0.
Qed.

Lemma land_ones_mod x k m :
  0 <= k -> m = Z.ones k -> Z.land x m = x mod 2 ^ k.
Proof. intros Hk ->. apply Z.land_ones, Hk. Qed.

Lemma land_3 x : Z.land x 3 = x mod 4.
Proof. apply (land_ones_mod x 2); [lia | reflexivity]. Qed.
Lemma land_7 x : Z.land x 7 = x mod 8.
Proof. apply (land_ones_mod x 3); [lia | reflexivity]. Qed.
Lemma land_15 x : Z.land x 15 = x mod 16.
Proof. apply (land_ones_mod x 4); [lia | reflexivity]. Qed.
Lemma land_31 x : Z.land x 31 = x mod 32.
Proof. apply (land_ones_mod x 5); [lia | reflexivity]. Qed.
Lemma land_63 x : Z.land x 63 = x mod 64.
Proof. apply (land_ones_mod x 6); [lia | reflexivity]. Qed.
Lemma land_255 x : Z.land x 255 = x mod 256.
Proof. apply (land_ones_mod x 8); [lia | reflexivity]. Qed.
Lemma land_1023 x : Z.land x 1023 = x mod 1024.
Proof. apply (land_ones_mod x 10); [lia | reflexivity]. Qed.

Lemma shiftr_div x k d : 0 <= k -> d = 2 ^ k -> Z.shiftr x k = x / d.
Proof. intros Hk ->. apply Z.shiftr_div_pow2, Hk. Qed.

Lemma shiftl_mul x k d : 0 <= k -> d = 2 ^ k -> Z.shiftl x k = x * d.
Proof. intros Hk ->. apply Z.shiftl_mul_pow2, Hk. Qed.

Lemma lor_mul_low a b k d :
  0 <= k -> d = 2 ^ k -> 0 <= b < d -> Z.lor (a * d) b = a * d + b.
Proof. intros Hk -> Hb. apply lor_disjoint; assumption. Qed.

(** A continuation byte of UTF-8. *)
Lemma lor_128 y : 0 <= y < 64 -> Z.lor 128 y = 128 + y.
Proof. intros Hy. apply (lor_mul_low 2 y 6 64); [lia | reflexivity | lia]. Qed.

End Bits.

(** ** UTF-8: decoding what was encoded *)

Section Utf8RoundTrip.

Import Utf8.

Lemma between_true lo b hi : lo <= b <= hi -> between lo b hi = true.
Proof. intros H. unfold between. apply andb_true_intro. split; apply Z.leb_le; lia. Qed.

Lemma between_false lo b hi : b < lo \/ hi < b -> between lo b hi = false.
Proof.
  intros H. unfold between. apply andb_false_iff.
  destruct H; [left | right]; apply Z.leb_gt; lia.
Qed.

Lemma run_cons st b rest st' out :
  step st b = (st', out) -> run st (b :: rest) = out ++ run st' rest.
Proof. intros H. cbn [run]. rewrite H. reflexivity. Qed.

Lemma lead_1 b : 0 <= b <= 0x7F -> lead b = (initial, [b]).
Proof. intros H. unfold lead. rewrite between_true by lia. reflexivity. Qed.

Lemma lead_2 b :
  0xC2 <= b <= 0xDF -> lead b = (State (Z.land b 0x1F) 0 1 0x80 0xBF, []).
Proof.
  intros H. unfold lead.
  rewrite between_false, between_true by lia. reflexivity.
Qed.

Lemma lead_3 b :
  0xE0 <= b <= 0xEF ->
  lead b = (State (Z.land b 0xF) 0 2
              (if b =? 0xE0 then 0xA0 else 0x80) (if b =? 0xED then 0x9F else 0xBF), []).
Proof.
  intros H. unfold lead.
  rewrite between_false, between_false, between_true by lia. reflexivity.
Qed.

Lemma lead_4 b :
  0xF0 <= b <= 0xF4 ->
  lead b = (State (Z.land b 0x7) 0 3
              (if b =? 0xF0 then 0x90 else 0x80) (if b =? 0xF4 then 0x8F else 0xBF), []).
Proof.
  intros H. unfold lead.
  rewrite between_false, between_false, between_false, between_true by lia.
  reflexivity.
Qed.

Lemma step_initial b : step initial b = lead b.
Proof. reflexivity. Qed.

(** A continuation byte inside the boundaries. *)
Lemma step_continue cp seen needed lo hi b :
  needed <> 0 -> lo <= b <= hi ->
  step (State cp seen needed lo hi) b =
    if seen + 1 =? needed
    then (initial, [Z.lor (Z.shiftl cp 6) (Z.land b 0x3F)])
    else (State (Z.lor (Z.shiftl cp 6) (Z.land b 0x3F)) (seen + 1) needed 0x80 0xBF, []).
Proof.
  intros Hn Hb. unfold step. cbn [bytes_needed lower_boundary upper_boundary
                                  code_point bytes_seen].
  destruct (Z.eqb_spec needed 0) as [|_]; [contradiction|].
  rewrite between_true by lia. reflexivity.
Qed.

(** The bits a continuation byte adds to the code point. *)
Lemma push_bits cp x :
  Z.lor (Z.shiftl cp 6) (Z.land (Z.lor 0x80 (Z.land x 0x3F)) 0x3F)
  = cp * 64 + x mod 64.
Proof.
  change 0x3F with 63. change 0x80 with 128. rewrite (land_63 x).
  assert (Hy : 0 <= x mod 64 < 64) by (apply Z.mod_pos_bound; lia).
  rewrite lor_128 by exact Hy. rewrite land_63.
  rewrite (shiftl_mul cp 6 64) by (lia || reflexivity).
  replace ((128 + x mod 64) mod 64) with (x mod 64) by euclid.
  apply (lor_mul_low cp (x mod 64) 6 64); [lia | reflexivity | exact Hy].
Qed.

Lemma continuation_range x : 0x80 <= Z.lor 0x80 (Z.land x 0x3F) <= 0xBF.
Proof.
  change 0x3F with 63. rewrite land_63.
  change 0x80 with 128. rewrite lor_128 by euclid. euclid.
Qed.

Lemma run_encode_scalar cp rest :
  is_scalar cp -> run initial (encode_scalar cp ++ rest) = cp :: run initial rest.
Proof.
  intros [Hr Hs]. unfold encode_scalar.
  destruct (Z.leb_spec cp 0x7F) as [H1|H1].
  { cbn [app]. rewrite (run_cons _ _ _ initial [cp]); [reflexivity|].
    rewrite step_initial. apply lead_1. lia. }
  destruct (Z.leb_spec cp 0x7FF) as [H2|H2].
  { cbn [app].
    rewrite (shiftr_div cp 6 64) by (lia || reflexivity).
    erewrite run_cons; [| rewrite step_initial; apply lead_2; euclid ].
    erewrite run_cons;
      [| rewrite step_continue by (lia || apply continuation_range); reflexivity ].
    cbn [app]. f_equal.
    rewrite push_bits.
    change 0x1F with 31. rewrite land_31. euclid. }
  destruct (Z.leb_spec cp 0xFFFF) as [H3|H3].
  { cbn [app].
    rewrite (shiftr_div cp 12 4096), (shiftr_div cp 6 64) by (lia || reflexivity).
    erewrite run_cons; [| rewrite step_initial; apply lead_3; euclid ].
    erewrite run_cons.
    2:{ rewrite step_continue; [reflexivity | lia |].
        change 0x3F with 63. rewrite land_63.
        change 0x80 with 128 at 2 3. rewrite lor_128 by euclid.
        destruct (Z.eqb_spec (cp / 4096 + 224) 224);
          destruct (Z.eqb_spec (cp / 4096 + 224) 237); euclid. }
    cbn [app Z.add Z.eqb Pos.eqb].
    erewrite run_cons;
      [| rewrite step_continue by (lia || apply continuation_range); reflexivity ].
    cbn [app]. f_equal.
    rewrite !push_bits.
    change 0xF with 15. rewrite land_15. euclid. }
  { cbn [app].
    rewrite (shiftr_div cp 18 262144), (shiftr_div cp 12 4096), (shiftr_div cp 6 64)
      by (lia || reflexivity).
    erewrite run_cons; [| rewrite step_initial; apply lead_4; euclid ].
    erewrite run_cons.
    2:{ rewrite step_continue; [reflexivity | lia |].
        change 0x3F with 63. rewrite land_63.
        change 0x80 with 128 at 2 3. rewrite lor_128 by euclid.
        destruct (Z.eqb_spec (cp / 262144 + 240) 240);
          destruct (Z.eqb_spec (cp / 262144 + 240) 244); euclid. }
    cbn [app Z.add Z.eqb Pos.eqb].
    erewrite run_cons;
      [| rewrite step_continue by (lia || apply continuation_range); reflexivity ].
    cbn [app Z.add Z.eqb Pos.eqb Pos.add Pos.succ].
    erewrite run_cons;
      [| rewrite step_continue by (lia || apply continuation_range); reflexivity ].
    cbn [app]. f_equal.
    rewrite !push_bits.
    change 0x7 with 7. rewrite land_7. euclid. }
Qed.

End Utf8RoundTrip.

(** ** Text: code units, code points and their UTF-8 bytes *)

Section Text.

Lemma is_high_surrogate_spec u :
  reflect (0xD800 <= u <= 0xDBFF) (is_high_surrogate u).
Proof.
  apply iff_reflect. unfold is_high_surrogate.
  rewrite andb_true_iff, !Z.leb_le. reflexivity.
Qed.

Lemma is_low_surrogate_spec u :
  reflect (0xDC00 <= u <= 0xDFFF) (is_low_surrogate u).
Proof.
  apply iff_reflect. unfold is_low_surrogate.
  rewrite andb_true_iff, !Z.leb_le. reflexivity.
Qed.

(** Induction on strings that may take one or two code units at once. *)
Lemma jsstring_ind2 (P : jsstring -> Prop) :
  P [] ->
  (forall u rest, P rest -> (forall v rest', rest = v :: rest' -> P rest') -> P (u :: rest)) ->
  forall s, P s.
Proof.
  intros Hnil Hcons s.
  assert (H : P s /\ (forall v rest', s = v :: rest' -> P rest')).
  { induction s as [|u s [IH1 IH2]].
    - split; [exact Hnil | discriminate].
    - split; [apply Hcons; assumption |].
      intros v rest' [= -> ->]. exact IH1. }
  apply H.
Qed.

Lemma utf16_units_bmp cp : cp < 0x10000 -> utf16_units cp = [cp].
Proof.
  intros H. unfold utf16_units. destruct (Z.ltb_spec cp 0x10000); [reflexivity | lia].
Qed.

Lemma utf16_units_pair u v :
  0xD800 <= u <= 0xDBFF -> 0xDC00 <= v <= 0xDFFF ->
  utf16_units (0x10000 + (u - 0xD800) * 0x400 + (v - 0xDC00)) = [u; v].
Proof.
  intros Hu Hv. unfold utf16_units.
  destruct (Z.ltb_spec (0x10000 + (u - 0xD800) * 0x400 + (v - 0xDC00)) 0x10000); [lia|].
  change 0x3FF with 1023. rewrite land_1023.
  rewrite (shiftr_div _ 10 1024) by (lia || reflexivity).
  f_equal; [euclid | f_equal; euclid].
Qed.

(** The code units of a supplementary code point are a surrogate pair. *)
Lemma utf16_units_supplementary cp :
  0x10000 <= cp <= 0x10FFFF ->
  exists u v, utf16_units cp = [u; v]
              /\ 0xD800 <= u <= 0xDBFF /\ 0xDC00 <= v <= 0xDFFF.
Proof.
  intros H. unfold utf16_units.
  destruct (Z.ltb_spec cp 0x10000); [lia|].
  eexists _, _. split; [reflexivity|].
  change 0x3FF with 1023. rewrite land_1023.
  rewrite (shiftr_div _ 10 1024) by (lia || reflexivity).
  split; euclid.
Qed.

Lemma scalar_values_well_formed s :
  well_formed s = true ->
  Forall is_scalar (scalar_values s) /\ flat_map utf16_units (scalar_values s) = s.
Proof.
  induction s as [|u rest IH1 IH2] using jsstring_ind2; intros Hwf.
  - split; [constructor | reflexivity].
  - cbn [well_formed scalar_values] in *.
    destruct (is_high_surrogate_spec u) as [Hu|Hu].
    + destruct rest as [|v rest']; [discriminate|].
      apply andb_true_iff in Hwf as [Hv Hwf].
      rewrite Hv. destruct (is_low_surrogate_spec v) as [Hv'|]; [|discriminate].
      destruct (IH2 v rest' eq_refl Hwf) as [Hsc Heq].
      split.
      * constructor; [|exact Hsc]. unfold is_scalar. lia.
      * cbn [flat_map]. rewrite utf16_units_pair by lia. rewrite Heq. reflexivity.
    + apply andb_true_iff in Hwf as [Hwf Hrest].
      apply andb_true_iff in Hwf as [Hwf Hlow].
      apply andb_true_iff in Hwf as [H0 H1].
      apply Z.leb_le in H0, H1.
      destruct (is_low_surrogate_spec u) as [|Hu']; [discriminate|].
      destruct (IH1 Hrest) as [Hsc Heq].
      split.
      * constructor; [|exact Hsc]. unfold is_scalar. lia.
      * cbn [flat_map]. rewrite utf16_units_bmp by lia. rewrite Heq. reflexivity.
Qed.

Lemma head_scalar_values s :
  well_formed s = true -> head (scalar_values s) = Some 0xFEFF -> head s = Some 0xFEFF.
Proof.
  destruct s as [|u rest]; [discriminate|]. cbn [well_formed scalar_values].
  destruct (is_high_surrogate_spec u) as [Hu|Hu].
  - destruct rest as [|v rest']; [discriminate|].
    destruct (is_low_surrogate_spec v) as [Hv|]; [|discriminate].
    intros _ [= H]. lia.
  - destruct (is_low_surrogate_spec u) as [Hl|Hl].
    + rewrite andb_false_r. discriminate.
    + intros _ H. exact H.
Qed.

Lemma run_encode cps :
  Forall is_scalar cps ->
  Utf8.run Utf8.initial (flat_map Utf8.encode_scalar cps) = cps.
Proof.
  induction 1 as [|cp cps Hcp _ IH]; [reflexivity|].
  cbn [flat_map]. rewrite run_encode_scalar by exact Hcp. rewrite IH. reflexivity.
Qed.

Lemma drop_bom_other cps :
  head cps <> Some 0xFEFF -> Utf8.drop_bom cps = cps.
Proof.
  destruct cps as [|cp cps]; [reflexivity|]. cbn [head Utf8.drop_bom].
  intros H. destruct (Z.eqb_spec cp 0xFEFF); [congruence | reflexivity].
Qed.

(** The platform's decoder undoes its encoder on well-formed text that
    does not begin with the byte order mark. *)
Lemma utf8_decode_encode s :
  well_formed s = true -> head s <> Some 0xFEFF ->
  Utf8.decode (Utf8.encode s) = s.
Proof.
  intros Hwf Hbom. unfold Utf8.decode, Utf8.encode.
  destruct (scalar_values_well_formed s Hwf) as [Hsc Heq].
  rewrite run_encode by exact Hsc.
  rewrite drop_bom_other; [exact Heq|].
  intros H. apply Hbom, head_scalar_values; assumption.
Qed.

Lemma encode_scalar_bytes cp : is_scalar cp -> Forall is_byte (Utf8.encode_scalar cp).
Proof.
  intros [Hr Hs]. unfold Utf8.encode_scalar, is_byte.
  pose proof (continuation_range cp).
  pose proof (continuation_range (Z.shiftr cp 6)).
  pose proof (continuation_range (Z.shiftr cp 12)).
  destruct (Z.leb_spec cp 0x7F); [repeat constructor; lia|].
  destruct (Z.leb_spec cp 0x7FF).
  { rewrite (shiftr_div cp 6 64) in * by (lia || reflexivity).
    repeat constructor; try lia; euclid. }
  destruct (Z.leb_spec cp 0xFFFF).
  { rewrite (shiftr_div cp 12 4096) in * by (lia || reflexivity).
    repeat constructor; try lia; euclid. }
  rewrite (shiftr_div cp 18 262144) in * by (lia || reflexivity).
  repeat constructor; try lia; euclid.
Qed.

Lemma encode_bytes s : well_formed s = true -> Forall is_byte (Utf8.encode s).
Proof.
  intros Hwf. destruct (scalar_values_well_formed s Hwf) as [Hsc _].
  unfold Utf8.encode. induction Hsc as [|cp cps Hcp _ IH]; [constructor|].
  cbn [flat_map]. apply Forall_app. split; [apply encode_scalar_bytes, Hcp | exact IH].
Qed.

(** *** The string iterator *)

Lemma spread_single u rest :
  is_high_surrogate u = false -> spread (u :: rest) = [u] :: spread rest.
Proof. intros H. cbn [spread]. rewrite H. destruct rest; reflexivity. Qed.

Lemma spread_pair u v rest :
  is_high_surrogate u = true -> is_low_surrogate v = true ->
  spread (u :: v :: rest) = [u; v] :: spread rest.
Proof. intros Hu Hv. cbn [spread]. rewrite Hu, Hv. reflexivity. Qed.

Lemma spread_symbol cp rest :
  is_scalar cp -> spread (utf16_units cp ++ rest) = utf16_units cp :: spread rest.
Proof.
  intros [Hr Hs]. destruct (Z.lt_ge_cases cp 0x10000) as [Hlt|Hge].
  - rewrite utf16_units_bmp by lia. cbn [app]. apply spread_single.
    destruct (is_high_surrogate_spec cp); [lia | reflexivity].
  - destruct (utf16_units_supplementary cp ltac:(lia)) as (u & v & -> & Hu & Hv).
    cbn [app]. apply spread_pair.
    + destruct (is_high_surrogate_spec u); [reflexivity | lia].
    + destruct (is_low_surrogate_spec v); [reflexivity | lia].
Qed.

End Text.

(** ** buildMaps *)

Section BuildMaps.

Lemma buildMaps_snoc (emojiArr : list value) (e : value) :
  buildMaps (emojiArr ++ [e]) =
    (<[Z.of_nat (length emojiArr) := e]> (buildMaps emojiArr).1,
     <[e := Z.of_nat (length emojiArr)]> (buildMaps emojiArr).2).
Proof.
  unfold buildMaps. rewrite imap_app, fold_left_app. cbn [imap fold_left].
  destruct (fold_left _ _ _) as [encMap decMap].
  rewrite Nat.add_0_r. reflexivity.
Qed.

Lemma buildMaps_nil : buildMaps [] = (∅, ∅).
Proof. reflexivity. Qed.

(** [encMap] takes the index of every slot to what the slot holds. *)
Lemma encMap_lookup (emojiArr : list value) (k : nat) :
  (buildMaps emojiArr).1 !! Z.of_nat k = emojiArr !! k.
Proof.
  induction emojiArr as [|e l IH] using rev_ind.
  - rewrite buildMaps_nil. cbn [fst]. rewrite lookup_empty. reflexivity.
  - rewrite buildMaps_snoc. cbn [fst].
    destruct (decide (k = length l)) as [->|Hne].
    + rewrite lookup_insert_eq. symmetry. apply list_lookup_middle. reflexivity.
    + rewrite lookup_insert_ne by lia. rewrite IH.
      destruct (decide (k < length l)%nat).
      * rewrite lookup_app_l by lia. reflexivity.
      * rewrite !lookup_ge_None_2; [reflexivity | rewrite length_app; simpl; lia | lia].
Qed.

Lemma encMap_lookup_outside (emojiArr : list value) (i : Z) :
  i < 0 \/ Z.of_nat (length emojiArr) <= i -> (buildMaps emojiArr).1 !! i = None.
Proof.
  induction emojiArr as [|e l IH] using rev_ind; intros Hi.
  - rewrite buildMaps_nil. apply lookup_empty.
  - rewrite buildMaps_snoc. cbn [fst]. rewrite length_app in Hi. cbn [length] in Hi.
    rewrite lookup_insert_ne by lia. apply IH. lia.
Qed.

(** [decMap] takes every element to the last index at which it occurs. *)
Lemma decMap_lookup (emojiArr : list value) (v : value) (i : Z) :
  (buildMaps emojiArr).2 !! v = Some i <->
  exists k : nat, i = Z.of_nat k /\ emojiArr !! k = Some v
                  /\ forall k' : nat, (k < k')%nat -> emojiArr !! k' <> Some v.
Proof.
  revert i. induction emojiArr as [|e l IH] using rev_ind; intros i.
  - rewrite buildMaps_nil. cbn [snd]. rewrite lookup_empty. split; [discriminate|].
    intros (k & _ & H & _). discriminate.
  - rewrite buildMaps_snoc. cbn [snd].
    destruct (decide (e = v)) as [->|Hne].
    + rewrite lookup_insert_eq. split.
      * intros [= <-]. exists (length l). split; [reflexivity|]. split.
        -- apply list_lookup_middle. reflexivity.
        -- intros k' Hk'. rewrite lookup_ge_None_2; [discriminate|].
           rewrite length_app. simpl. lia.
      * intros (k & -> & Hk & Hlast).
        assert (Hlt : (k < length (l ++ [v]))%nat) by (eapply lookup_lt_Some; eauto).
        rewrite length_app in Hlt. cbn [length] in Hlt.
        destruct (decide (k = length l)) as [->|Hk']; [reflexivity|].
        exfalso. apply (Hlast (length l)); [lia|].
        apply list_lookup_middle. reflexivity.
    + rewrite lookup_insert_ne by exact Hne. rewrite IH. split.
      * intros (k & -> & Hk & Hlast). exists k. split; [reflexivity|].
        assert (Hlt : (k < length l)%nat) by (eapply lookup_lt_Some; eauto).
        split; [rewrite lookup_app_l by lia; exact Hk|].
        intros k' Hk'. destruct (decide (k' < length l)%nat).
        -- rewrite lookup_app_l by lia. apply Hlast, Hk'.
        -- destruct (decide (k' = length l)) as [->|].
           ++ rewrite list_lookup_middle by reflexivity. congruence.
           ++ rewrite lookup_ge_None_2; [discriminate|].
              rewrite length_app. simpl. lia.
      * intros (k & -> & Hk & Hlast). exists k. split; [reflexivity|].
        assert (Hlt : (k < length (l ++ [e]))%nat) by (eapply lookup_lt_Some; eauto).
        rewrite length_app in Hlt. cbn [length] in Hlt.
        destruct (decide (k = length l)) as [->|Hk'].
        { rewrite list_lookup_middle in Hk by reflexivity. congruence. }
        rewrite lookup_app_l in Hk by lia. split; [exact Hk|].
        intros k' Hk'' Hv. apply (Hlast k' Hk'').
        assert ((k' < length l)%nat) by (eapply lookup_lt_Some; eauto).
        rewrite lookup_app_l by lia. exact Hv.
Qed.

(** [decMap] knows exactly the elements of the array. *)
Lemma decMap_is_Some (emojiArr : list value) (v : value) :
  is_Some ((buildMaps emojiArr).2 !! v) <-> v ∈ emojiArr.
Proof.
  induction emojiArr as [|e l IH] using rev_ind.
  - rewrite buildMaps_nil. cbn [snd]. rewrite lookup_empty. split.
    + intros [? ?]. discriminate.
    + intros H. inversion H.
  - rewrite buildMaps_snoc. cbn [snd]. rewrite elem_of_app, list_elem_of_singleton.
    destruct (decide (e = v)) as [->|Hne].
    + rewrite lookup_insert_eq. split; [right; reflexivity | eauto].
    + rewrite lookup_insert_ne by exact Hne. rewrite IH. split; [tauto|].
      intros [?| ->]; [assumption | contradiction].
Qed.

Lemma decMap_lookup_NoDup (emojiArr : list value) (v : value) (k : nat) :
  NoDup emojiArr -> emojiArr !! k = Some v ->
  (buildMaps emojiArr).2 !! v = Some (Z.of_nat k).
Proof.
  intros Hnd Hk. apply decMap_lookup. exists k. split; [reflexivity|].
  split; [exact Hk|]. intros k' Hlt Hk'.
  pose proof (NoDup_lookup _ _ _ _ Hnd Hk Hk'). lia.
Qed.

End BuildMaps.

(** ** Nibbles *)

Section Nibbles.

Lemma to_int32_small x : - 2 ^ 31 <= x < 2 ^ 31 -> JS.to_int32 x = x.
Proof.
  intros Hx. unfold JS.to_int32.
  destruct (Z.ltb_spec (x mod 2 ^ 32) (2 ^ 31)); euclid.
Qed.

Lemma high_nibble b : is_byte b -> JS.sar b 4 = b / 16 /\ 0 <= b / 16 < 16.
Proof.
  unfold is_byte. intros Hb. unfold JS.sar.
  rewrite to_int32_small by lia. change (4 mod 32) with 4.
  rewrite (shiftr_div b 4 16) by (lia || reflexivity). split; [reflexivity | euclid].
Qed.

Lemma low_nibble b : is_byte b -> JS.and b 15 = b mod 16 /\ 0 <= b mod 16 < 16.
Proof.
  unfold is_byte. intros Hb. unfold JS.and.
  rewrite (to_int32_small b), (to_int32_small 15) by lia.
  rewrite land_15. assert (0 <= b mod 16 < 16) by euclid.
  split; [apply to_int32_small; lia | assumption].
Qed.

Lemma pack_byte hi lo :
  0 <= hi < 16 -> 0 <= lo < 16 ->
  JS.to_uint8 (JS.or (JS.shl hi 4) lo) = hi * 16 + lo.
Proof.
  intros Hhi Hlo. unfold JS.to_uint8, JS.or, JS.shl.
  change (4 mod 32) with 4.
  rewrite (to_int32_small hi), (to_int32_small lo) by lia.
  rewrite (shiftl_mul hi 4 16) by (lia || reflexivity).
  rewrite !(to_int32_small (hi * 16)) by lia.
  rewrite (lor_mul_low hi lo 4 16) by (lia || reflexivity).
  rewrite to_int32_small by lia. apply Z.mod_small. lia.
Qed.

Lemma pack_nibbles_of bytes :
  Forall is_byte bytes -> pack_nibbles (nibbles_of bytes) = bytes.
Proof.
  induction 1 as [|b bytes Hb _ IH]; [reflexivity|].
  unfold nibbles_of in *. cbn [flat_map app pack_nibbles].
  rewrite IH. f_equal. unfold is_byte in Hb.
  rewrite pack_byte by euclid. euclid.
Qed.

Lemma length_nibbles_of bytes :
  Z.of_nat (length (nibbles_of bytes)) mod 2 = 0.
Proof.
  unfold nibbles_of. induction bytes as [|b bytes IH]; [reflexivity|].
  cbn [flat_map app length]. euclid.
Qed.

End Nibbles.

(** ** The codec *)

Section Codec.

Lemma emojiEncode_unfold str emojiArr :
  emojiEncode str emojiArr =
    concat (map (fun b => add_joined (map_get (buildMaps emojiArr).1 (JS.sar b 4))
                                     (map_get (buildMaps emojiArr).1 (JS.and b 15)))
                (Utf8.encode str)).
Proof. unfold emojiEncode. destruct (buildMaps emojiArr). reflexivity. Qed.

Lemma emojiDecode_unfold emojiStr emojiArr :
  emojiDecode emojiStr emojiArr =
    bind_result (map_result (lookup_symbol emojiArr) (spread emojiStr))
      (fun nibbles =>
         if negb (Z.of_nat (length nibbles) mod 2 =? 0) then Err InvalidLength
         else Ok (Utf8.decode (pack_nibbles nibbles))).
Proof.
  unfold emojiDecode, lookup_symbol. destruct (buildMaps emojiArr). reflexivity.
Qed.

(** All symbols known: the nibbles are their indices, in order. *)
Lemma map_result_known emojiArr chars :
  (forall c, c ∈ chars -> VString c ∈ emojiArr) ->
  exists nibbles,
    map_result (lookup_symbol emojiArr) chars = Ok nibbles
    /\ Forall2 (fun c n => (buildMaps emojiArr).2 !! VString c = Some n) chars nibbles.
Proof.
  induction chars as [|c chars IH]; intros Hall.
  - exists []. split; [reflexivity | constructor].
  - destruct IH as (ns & Hns & Hf2).
    { intros d Hd. apply Hall. right. exact Hd. }
    destruct (proj2 (decMap_is_Some emojiArr (VString c))) as [n Hn].
    { apply Hall. left. }
    exists (n :: ns). split; [| constructor; assumption].
    cbn [map_result]. unfold lookup_symbol at 1. rewrite Hn. cbn [bind_result].
    rewrite Hns. reflexivity.
Qed.

(** An unknown symbol: the first one, from the left, is the exception. *)
Lemma map_result_unknown emojiArr pre c post :
  (forall d, d ∈ pre -> VString d ∈ emojiArr) ->
  VString c ∉ emojiArr ->
  map_result (lookup_symbol emojiArr) (pre ++ c :: post) = Err (UnknownEmoji c).
Proof.
  intros Hpre Hc. induction pre as [|d pre IH].
  - cbn [app map_result]. unfold lookup_symbol.
    destruct (_ !! VString c) as [n|] eqn:E; [|reflexivity].
    exfalso. apply Hc, decMap_is_Some. rewrite E. eauto.
  - cbn [app map_result].
    destruct (proj2 (decMap_is_Some emojiArr (VString d))) as [n Hn].
    { apply Hpre. left. }
    unfold lookup_symbol at 1. rewrite Hn. cbn [bind_result].
    rewrite IH; [reflexivity|]. intros d' Hd'. apply Hpre. right. exact Hd'.
Qed.

Lemma first_unknown (emojiArr : list value) (chars : list jsstring) :
  Exists (fun c => VString c ∉ emojiArr) chars ->
  exists pre c post,
    chars = pre ++ c :: post
    /\ (forall d, d ∈ pre -> VString d ∈ emojiArr)
    /\ VString c ∉ emojiArr.
Proof.
  induction 1 as [c l Hc | d l _ IH].
  - exists [], c, l. split; [reflexivity|]. split; [|exact Hc].
    intros d Hd. inversion Hd.
  - destruct (decide (VString d ∈ emojiArr)) as [Hd|Hd].
    + destruct IH as (pre & c & post & -> & Hpre & Hc).
      exists (d :: pre), c, post. split; [reflexivity|]. split; [|exact Hc].
      intros d' Hd'. apply elem_of_cons in Hd' as [->|Hd']; [exact Hd | apply Hpre, Hd'].
    + exists [], d, l. split; [reflexivity|]. split; [|exact Hd].
      intros d' Hd'. inversion Hd'.
Qed.

Variable emojiArr : list value.
Hypothesis alphabet : is_alphabet emojiArr.

(** Every nibble has its symbol, and the symbol gives the nibble back. *)
Lemma alphabet_nibble n :
  0 <= n < 16 ->
  exists cp, is_scalar cp
    /\ map_get (buildMaps emojiArr).1 n = VString (utf16_units cp)
    /\ lookup_symbol emojiArr (utf16_units cp) = Ok n.
Proof.
  intros Hn. destruct alphabet as (Hlen & Hnd & Hsym).
  destruct (lookup_lt_is_Some_2 emojiArr (Z.to_nat n)) as [v Hv]; [lia|].
  pose proof (proj1 (Forall_lookup _ _) Hsym _ _ Hv) as (cp & Hcp & ->).
  exists cp. split; [exact Hcp|]. split.
  - unfold map_get. rewrite <- (Z2Nat.id n) by lia.
    rewrite encMap_lookup, Hv. reflexivity.
  - unfold lookup_symbol. rewrite (decMap_lookup_NoDup _ _ _ Hnd Hv).
    rewrite Z2Nat.id by lia. reflexivity.
Qed.

Lemma decode_encoded_bytes bytes :
  Forall is_byte bytes ->
  map_result (lookup_symbol emojiArr)
    (spread (concat (map (fun b => add_joined (map_get (buildMaps emojiArr).1 (JS.sar b 4))
                                            (map_get (buildMaps emojiArr).1 (JS.and b 15)))
                         bytes)))
  = Ok (nibbles_of bytes).
Proof.
  induction 1 as [|b bytes Hb _ IH]; [reflexivity|].
  cbn [map concat].
  destruct (high_nibble b Hb) as [-> Hhi]. destruct (low_nibble b Hb) as [-> Hlo].
  destruct (alphabet_nibble _ Hhi) as (cp1 & Hcp1 & -> & Hd1).
  destruct (alphabet_nibble _ Hlo) as (cp2 & Hcp2 & -> & Hd2).
  cbn [add_joined]. rewrite <- !app_assoc.
  rewrite !spread_symbol by assumption.
  cbn [map_result]. rewrite Hd1, Hd2. cbn [bind_result]. rewrite IH. reflexivity.
Qed.

Lemma emojiDecode_emojiEncode str :
  well_formed str = true ->
  emojiDecode (emojiEncode str emojiArr) emojiArr = Ok (Utf8.decode (Utf8.encode str)).
Proof.
  intros Hwf. pose proof (encode_bytes str Hwf) as Hbytes.
  rewrite emojiDecode_unfold, emojiEncode_unfold.
  rewrite decode_encoded_bytes by exact Hbytes. cbn [bind_result].
  rewrite length_nibbles_of. cbn [Z.eqb negb].
  rewrite pack_nibbles_of by exact Hbytes. reflexivity.
Qed.

End Codec.

(** ** The base emoji set and alphabets *)

Section Alphabets.

Lemma BASE_EMO_value :
  BASE_EMO =
    map VString
      [[55357; 56832]; [55357; 56833]; [55357; 56834]; [55358; 56611];
       [55357; 56835]; [55357; 56836]; [55357; 56837]; [55357; 56838];
       [55357; 56841]; [55357; 56842]; [55357; 56843]; [55357; 56846];
       [55357; 56845]; [55357; 56856]; [55358; 56688]; [55357; 56855]].
Proof. vm_compute. reflexivity. Qed.

Lemma surrogate_pair_symbol u v :
  0xD800 <= u <= 0xDBFF -> 0xDC00 <= v <= 0xDFFF -> is_symbol (VString [u; v]).
Proof.
  intros Hu Hv. exists (code_point_of [u; v]). cbn [code_point_of]. split.
  - unfold is_scalar. lia.
  - rewrite utf16_units_pair by assumption. reflexivity.
Qed.

Lemma BASE_EMO_alphabet : is_alphabet BASE_EMO.
Proof.
  rewrite BASE_EMO_value. split; [reflexivity|]. split.
  - apply (bool_decide_unpack _). vm_compute. exact I.
  - cbn [map]. repeat constructor; apply surrogate_pair_symbol; lia.
Qed.

Lemma alphabet_Permutation (a b : list value) :
  Permutation a b -> is_alphabet a -> is_alphabet b.
Proof.
  intros Hp (Hlen & Hnd & Hsym). split; [|split].
  - rewrite <- Hlen. symmetry. apply Permutation_length, Hp.
  - rewrite <- Hp. exact Hnd.
  - rewrite <- Hp. exact Hsym.
Qed.

End Alphabets.

(** ** The codec: round trip, vectors and rejections *)




(** C3.  With the base set, the text "A", whose encoding is the single
    byte 0x41, encodes to the symbols of indices 4 and 1, and these decode
    to it; the empty text encodes to the empty sequence, which decodes to
    the empty text. *)
Theorem concrete_vectors :
  Utf8.encode (lit "A") = [0x41]
  /\ BASE_EMO !! 4%nat = Some (VString (lit "😃"))
  /\ BASE_EMO !! 1%nat = Some (VString (lit "😁"))
  /\ emojiEncode (lit "A") BASE_EMO = lit "😃😁"
  /\ spread (lit "😃😁") = [lit "😃"; lit "😁"]
  /\ pack_nibbles [4; 1] = [0x41]
  /\ emojiDecode (lit "😃😁") BASE_EMO = Ok (lit "A")
  /\ emojiEncode [] BASE_EMO = []
  /\ emojiDecode [] BASE_EMO = Ok [].
Proof. repeat split; vm_compute; reflexivity. Qed.

(** C7.  Whatever the array of symbols: when some symbol of the input is
    not in it, decoding fails with the unknown-emoji error, raised for the
    first such symbol; when all are in it and their number is odd, decoding
    fails with the length error.  Neither case returns a string. *)
Theorem emojiDecode_rejects (emojiStr : jsstring) (emojiArr : list value) :
  (forall pre c post,
     spread emojiStr = pre ++ c :: post ->
     (forall d, d ∈ pre -> VString d ∈ emojiArr) ->
     VString c ∉ emojiArr ->
     emojiDecode emojiStr emojiArr = Err (UnknownEmoji c))
  /\ ((exists c, c ∈ spread emojiStr /\ VString c ∉ emojiArr) ->
      exists c, c ∈ spread emojiStr /\ (VString c ∉ emojiArr)
                /\ emojiDecode emojiStr emojiArr = Err (UnknownEmoji c))
  /\ ((forall c, c ∈ spread emojiStr -> VString c ∈ emojiArr) ->
      Z.of_nat (length (spread emojiStr)) mod 2 = 1 ->
      emojiDecode emojiStr emojiArr = Err InvalidLength).
Proof.
  assert (Hfirst : forall pre c post,
     spread emojiStr = pre ++ c :: post ->
     (forall d, d ∈ pre -> VString d ∈ emojiArr) ->
     VString c ∉ emojiArr ->
     emojiDecode emojiStr emojiArr = Err (UnknownEmoji c)).
  { intros pre c post Hsplit Hpre Hc. rewrite emojiDecode_unfold, Hsplit.
    rewrite map_result_unknown by assumption. reflexivity. }
  split; [exact Hfirst|]. split.
  - intros (c & Hin & Hc).
    assert (Hex : Exists (fun c => VString c ∉ emojiArr) (spread emojiStr)).
    { apply Exists_exists. eauto. }
    clear c Hin Hc. apply first_unknown in Hex as Hsplit.
    destruct Hsplit as (pre & c & post & Hsplit & Hpre & Hc).
    exists c. split; [| split; [exact Hc | eapply Hfirst; eassumption]].
    rewrite Hsplit. apply elem_of_app. right. left.
  - intros Hall Hodd. rewrite emojiDecode_unfold.
    destruct (map_result_known emojiArr (spread emojiStr) Hall) as (ns & -> & Hf2).
    cbn [bind_result]. rewrite <- (Forall2_length _ _ _ Hf2), Hodd. reflexivity.
Qed.

Lemma emojiDecode_rejects_witness :
  emojiDecode (lit "😃x") BASE_EMO = Err (UnknownEmoji (lit "x"))
  /\ emojiDecode (lit "😃😁😃") BASE_EMO = Err InvalidLength.
Proof.
  split.
  - apply (proj1 (emojiDecode_rejects (lit "😃x") BASE_EMO) [lit "😃"] (lit "x") []).
    + vm_compute. reflexivity.
    + intros d Hd. apply list_elem_of_singleton in Hd as ->.
      apply (bool_decide_unpack _). vm_compute. exact I.
    + apply (bool_decide_unpack _). vm_compute. exact I.
  - apply (proj2 (proj2 (emojiDecode_rejects (lit "😃😁😃") BASE_EMO))).
    + apply Forall_forall. apply (bool_decide_unpack _). vm_compute. exact I.
    + vm_compute. reflexivity.
Defined.

(** C8 as stated fails: nothing checks an array of symbols.  An array of
    two equal symbols is taken as it is, by [buildMaps] and by both codec
    functions, and an array too short to name a nibble makes [emojiEncode]
    print [NaN]. *)
Lemma unchecked_alphabet_counterexample :
  let pair := [VString (lit "a"); VString (lit "a")] in
  length pair <> 16%nat
  /\ ~ NoDup pair
  /\ (buildMaps pair).2 !! VString (lit "a") = Some 1
  /\ emojiEncode [0x11] pair = lit "aa"
  /\ emojiDecode (lit "aa") pair = Ok [0x11]
  /\ emojiEncode (lit "A") [VString (lit "x")] = lit "NaN".
Proof.
  cbv zeta. split; [vm_compute; discriminate|]. split.
  - intros H. apply NoDup_cons in H as [H _]. apply H. left.
  - repeat split; vm_compute; reflexivity.
Qed.

(** C8 (as amended).  [buildMaps] accepts every array, of any size and
    with or without repetitions, and raises no error: [encMap] takes the
    index of each slot to the element in it and nothing else, and [decMap]
    takes each element to the last index at which it occurs. *)
Theorem buildMaps_accepts_any_array (emojiArr : list value) :
  (forall k : nat, (buildMaps emojiArr).1 !! Z.of_nat k = emojiArr !! k)
  /\ (forall i : Z, i < 0 \/ Z.of_nat (length emojiArr) <= i ->
                    (buildMaps emojiArr).1 !! i = None)
  /\ (forall (v : value) (i : Z),
        (buildMaps emojiArr).2 !! v = Some i <->
        exists k : nat, i = Z.of_nat k /\ emojiArr !! k = Some v
                        /\ forall k' : nat, (k < k')%nat -> emojiArr !! k' <> Some v).
Proof.
  split; [apply encMap_lookup|]. split; [apply encMap_lookup_outside|].
  apply decMap_lookup.
Qed.

Lemma encode_scalar_not_0xFF cp rest : Utf8.encode_scalar cp ++ rest <> [0xFF].
Proof.
  unfold Utf8.encode_scalar.
  destruct (Z.leb_spec cp 0x7F); [cbn [app]; intros [= -> _]; lia|].
  destruct (Z.leb_spec cp 0x7FF); [discriminate|].
  destruct (Z.leb_spec cp 0xFFFF); discriminate.
Qed.

Lemma encode_not_0xFF str : Utf8.encode str <> [0xFF].
Proof.
  unfold Utf8.encode. destruct (scalar_values str) as [|cp cps]; [discriminate|].
  cbn [flat_map]. apply encode_scalar_not_0xFF.
Qed.

(** C9 as stated fails: the byte 0xFF, which no text encodes to, is decoded
    to U+FFFD. *)
Lemma invalid_utf8_counterexample :
  spread (lit "😗😗") = [lit "😗"; lit "😗"]
  /\ pack_nibbles [15; 15] = [0xFF]
  /\ (forall str, Utf8.encode str <> [0xFF])
  /\ emojiDecode (lit "😗😗") BASE_EMO = Ok [0xFFFD].
Proof.
  split; [vm_compute; reflexivity|]. split; [vm_compute; reflexivity|].
  split; [exact encode_not_0xFF|]. vm_compute. reflexivity.
Qed.

(** C9 (as amended).  Decoding never fails on account of the bytes: when
    all symbols of the input are in the array and their number is even,
    [emojiDecode] returns the string that the platform's decoder, which is
    not fatal, makes of the bytes packed from the symbols' indices, each
    malformed sequence in them replaced by U+FFFD. *)
Theorem emojiDecode_is_lenient (emojiStr : jsstring) (emojiArr : list value) :
  (forall c, c ∈ spread emojiStr -> VString c ∈ emojiArr) ->
  Z.of_nat (length (spread emojiStr)) mod 2 = 0 ->
  exists nibbles,
    Forall2 (fun c n => (buildMaps emojiArr).2 !! VString c = Some n)
            (spread emojiStr) nibbles
    /\ emojiDecode emojiStr emojiArr = Ok (Utf8.decode (pack_nibbles nibbles)).
Proof.
  intros Hall Heven. rewrite emojiDecode_unfold.
  destruct (map_result_known emojiArr (spread emojiStr) Hall) as (ns & -> & Hf2).
  exists ns. split; [exact Hf2|].
  cbn [bind_result]. rewrite <- (Forall2_length _ _ _ Hf2), Heven. reflexivity.
Qed.

Lemma emojiDecode_is_lenient_witness :
  exists nibbles,
    Forall2 (fun c n => (buildMaps BASE_EMO).2 !! VString c = Some n)
            (spread (lit "😗😗")) nibbles
    /\ emojiDecode (lit "😗😗") BASE_EMO = Ok (Utf8.decode (pack_nibbles nibbles)).
Proof.
  apply (emojiDecode_is_lenient (lit "😗😗") BASE_EMO).
  - apply Forall_forall. apply (bool_decide_unpack _). vm_compute. exact I.
  - vm_compute. reflexivity.
Defined.

(** ** The seed and the characters of the passphrase *)

Section SeedCharacters.

(** Without a character beyond U+FFFF the code points of a string are its
    code units. *)
Lemma code_points_bmp (s : jsstring) :
  Forall (fun cp => cp < 0x10000) (code_points s) -> code_points s = s.
Proof.
  induction s as [|u rest IH1 IH2] using jsstring_ind2; intros Hbmp; [reflexivity|].
  cbn [code_points] in *. destruct rest as [|v rest']; [reflexivity|].
  destruct (is_high_surrogate_spec u) as [Hu|Hu];
    [destruct (is_low_surrogate_spec v) as [Hv|Hv]|]; cbn [andb] in *.
  - apply Forall_cons in Hbmp as [Hcp _]. lia.
  - apply Forall_cons in Hbmp as [_ Hbmp]. rewrite (IH1 Hbmp). reflexivity.
  - apply Forall_cons in Hbmp as [_ Hbmp]. rewrite (IH1 Hbmp). reflexivity.
Qed.

End SeedCharacters.

(** C4 as stated fails: the passphrase of the one character U+1F511 has two
    code units, which [xmur3] counts and absorbs one after the other, so
    that its seed is not the one of the reference definition, which counts
    one character and absorbs its code point. *)
Lemma xmur3_seed_counterexample :
  lit "🔑" = [0xD83D; 0xDD11]
  /\ code_points (lit "🔑") = [0x1F511]
  /\ fst (xmur3_call (xmur3 (lit "🔑"))) = 1411821485
  /\ SeedSpec.seed (lit "🔑") = 4170785153
  /\ fst (xmur3_call (xmur3 (lit "🔑"))) <> SeedSpec.seed (lit "🔑").
Proof.
  assert (E1 : fst (xmur3_call (xmur3 (lit "🔑"))) = 1411821485) by (vm_compute; reflexivity).
  assert (E2 : SeedSpec.seed (lit "🔑") = 4170785153) by (vm_compute; reflexivity).
  split; [vm_compute; reflexivity|]. split; [vm_compute; reflexivity|].
  split; [exact E1|]. split; [exact E2|]. rewrite E1, E2. discriminate.
Qed.

(** C4 (as amended).  For every passphrase the seed that [seededShuffle]
    takes, [xmur3(pass)()], is the reference seed taken over the UTF-16
    code units of the passphrase: from [1779033703 XOR] the number of code
    units, every code unit xor-ed in, multiplied by 3432918353 modulo 2^32
    and rotated left by 13 bits, then the finalisation (xor-shift 16, times
    2246822507, xor-shift 13, times 3266489909, xor-shift 16), an unsigned
    32-bit number.  When no character of the passphrase lies beyond U+FFFF
    this is the reference seed over its characters' code points. *)
Theorem xmur3_seed_over_code_units (pass : jsstring) :
  fst (xmur3_call (xmur3 pass)) = SeedSpec.seed_of_units pass
  /\ 0 <= fst (xmur3_call (xmur3 pass)) < 2 ^ 32
  /\ (Forall (fun cp => cp < 0x10000) (code_points pass) ->
      fst (xmur3_call (xmur3 pass)) = SeedSpec.seed pass).
Proof.
  split; [apply xmur3_seed_of_units|]. split; [apply xmur3_seed_range|].
  intros Hbmp. unfold SeedSpec.seed. rewrite (code_points_bmp pass Hbmp).
  apply xmur3_seed_of_units.
Qed.

Lemma xmur3_seed_over_code_units_witness :
  fst (xmur3_call (xmur3 (lit "pässword"))) = SeedSpec.seed (lit "pässword").
Proof.
  apply (proj2 (proj2 (xmur3_seed_over_code_units (lit "pässword")))).
  vm_compute. repeat constructor.
Defined.

(** ** The random index *)

Section RandomIndex.

(** Rounding to a double moves a number by at most half a unit in the last
    place, which is at most the number over 2^53. *)
Lemma round53_bounds m :
  0 <= m -> 0 <= JS.round53 m /\ (JS.round53 m - m) * 2 ^ 53 <= m.
Proof.
  intros Hm. unfold JS.round53.
  destruct (Z.ltb_spec m (2 ^ 53)) as [Hlt|Hge]; [lia|].
  destruct (Z.log2_spec m ltac:(lia)) as [Hlo Hhi].
  set (L := Z.log2 m) in *.
  assert (HL : 53 <= L).
  { assert (53 < L + 1); [|lia].
    apply (Z.pow_lt_mono_r_iff 2); [lia | pose proof (Z.log2_nonneg m); lia | lia]. }
  set (s := L - 52).
  assert (Hs : 2 ^ L = 2 ^ s * 2 ^ 52).
  { rewrite <- Z.pow_add_r by lia. f_equal. lia. }
  assert (Hh : 2 ^ s = 2 * 2 ^ (s - 1)).
  { rewrite <- Z.pow_succ_r by lia. f_equal. lia. }
  assert (Hpos : 0 < 2 ^ (s - 1)) by (apply Z.pow_pos_nonneg; lia).
  pose proof (Z.div_mod m (2 ^ s) ltac:(lia)) as Hdm.
  pose proof (Z.mod_pos_bound m (2 ^ s) ltac:(lia)) as Hr.
  assert (Hq : 0 <= m / 2 ^ s) by (apply Z.div_pos; lia).
  set (q := m / 2 ^ s) in *. set (r := m mod 2 ^ s) in *.
  set (S := 2 ^ s) in *. set (H := 2 ^ (s - 1)) in *.
  change (2 ^ 53) with (2 * 2 ^ 52) in *. set (T := 2 ^ 52) in *.
  assert (HT : 0 < T) by (subst T; lia).
  destruct (Z.ltb_spec r H); [nia|].
  destruct (Z.ltb_spec H r); [nia|].
  destruct (Z.even q); nia.
Qed.

Lemma floor_mul_range k n :
  0 <= k < 2 ^ 32 -> 0 < n -> 0 <= floor_mul k n < n.
Proof.
  intros Hk Hn. unfold floor_mul.
  destruct (round53_bounds (k * n) ltac:(nia)) as [H0 H1].
  set (R := JS.round53 (k * n)) in *.
  split; [apply Z.div_pos; lia|].
  apply Z.div_lt_upper_bound; [lia|].
  change (2 ^ 53) with (2 ^ 32 * 2 ^ 21) in H1.
  set (P := 2 ^ 32) in *. assert (0 < P) by (subst P; lia).
  assert (k * n <= P * n - n) by nia.
  nia.
Qed.

Lemma mulberry32_call_range a : 0 <= fst (mulberry32_call a) < 2 ^ 32.
Proof. unfold mulberry32_call. cbv zeta. cbn [fst]. apply shr_bounds. lia. Qed.

(** The index that the loop draws at [i] is one of [0 .. i]. *)
Lemma random_index_range k i :
  0 <= k < 2 ^ 32 -> (Z.to_nat (floor_mul k (Z.of_nat i + 1)) <= i)%nat.
Proof.
  intros Hk. pose proof (floor_mul_range k (Z.of_nat i + 1) Hk ltac:(lia)). lia.
Qed.

End RandomIndex.

(** ** Swaps and the shuffle of the slots *)

Section Slots.

Lemma array_set_inside (l : list value) i v :
  (i < length l)%nat -> array_set l i v = <[i := v]> l.
Proof. intros H. unfold array_set. destruct (decide (i < length l)%nat); [reflexivity | lia]. Qed.

Lemma array_get_Some (l : list value) i x : l !! i = Some x -> array_get l i = x.
Proof. unfold array_get. intros ->. reflexivity. Qed.

Lemma insert_Permutation (l : list value) j x y :
  l !! j = Some y -> y :: <[j := x]> l ≡ₚ x :: l.
Proof.
  revert j. induction l as [|a l IH]; intros [|j] Hj; try discriminate.
  - cbn in Hj. injection Hj as ->. cbn. apply perm_swap.
  - cbn in Hj. cbn.
    transitivity (a :: y :: <[j := x]> l); [apply perm_swap|].
    transitivity (a :: x :: l); [constructor; apply IH, Hj | apply perm_swap].
Qed.

Lemma swap_Permutation (l : list value) i j x y :
  l !! i = Some x -> l !! j = Some y -> <[j := x]> (<[i := y]> l) ≡ₚ l.
Proof.
  revert i j. induction l as [|a l IH]; intros [|i] [|j] Hi Hj; try discriminate.
  - cbn in Hi, Hj. injection Hi as ->. injection Hj as ->. reflexivity.
  - cbn in Hi, Hj. injection Hi as ->. cbn. apply insert_Permutation, Hj.
  - cbn in Hi, Hj. injection Hj as ->. cbn. apply insert_Permutation, Hi.
  - cbn in Hi, Hj. cbn. constructor. apply IH; assumption.
Qed.

Lemma swap_slots_inside (l : list value) i j :
  (i < length l)%nat -> (j < length l)%nat ->
  swap_slots l i j ≡ₚ l /\ length (swap_slots l i j) = length l.
Proof.
  intros Hi Hj. unfold swap_slots.
  destruct (lookup_lt_is_Some_2 l i Hi) as [x Hx].
  destruct (lookup_lt_is_Some_2 l j Hj) as [y Hy].
  rewrite (array_get_Some l i x Hx), (array_get_Some l j y Hy).
  rewrite (array_set_inside l i y Hi).
  rewrite array_set_inside by (rewrite length_insert; exact Hj).
  split; [apply swap_Permutation; assumption|].
  rewrite !length_insert. reflexivity.
Qed.

Lemma shuffle_slots_Permutation i : forall a (l : list value),
  (i < length l)%nat ->
  shuffle_slots i a l ≡ₚ l /\ length (shuffle_slots i a l) = length l.
Proof.
  induction i as [|i IH]; intros a l Hi; [split; reflexivity|].
  cbn [shuffle_slots].
  pose proof (mulberry32_call_range a) as Hk.
  destruct (mulberry32_call a) as [k a']. cbn [fst] in Hk.
  pose proof (random_index_range k (S i) Hk) as Hj.
  set (j := Z.to_nat (floor_mul k (Z.of_nat (S i) + 1))) in *.
  destruct (swap_slots_inside l (S i) j Hi ltac:(lia)) as [Hp Hlen].
  destruct (IH a' (swap_slots l (S i) j) ltac:(lia)) as [Hp' Hlen'].
  split; [rewrite Hp'; exact Hp | lia].
Qed.

Lemma shuffled_Permutation (l : list value) pass :
  shuffled l pass ≡ₚ l.
Proof.
  unfold shuffled. destruct l as [|x l]; [reflexivity|].
  apply shuffle_slots_Permutation. cbn [length]. lia.
Qed.

End Slots.

(** ** seededShuffle on the heap *)

Section Heap.

Lemma deref_Some (h : heap) r l : h !! r = Some l -> deref h r = l.
Proof. unfold deref. intros ->. reflexivity. Qed.

Lemma array_swap_heap (h : heap) out l i j :
  h !! out = Some l -> array_swap out i j h = <[out := swap_slots l i j]> h.
Proof.
  intros Hout. pose proof (lookup_lt_Some _ _ _ Hout) as Hlt.
  unfold array_swap, array_write, swap_slots.
  rewrite (deref_Some h out l Hout).
  rewrite (deref_Some (<[out := array_set l i (array_get l j)]> h) out
             (array_set l i (array_get l j)))
    by (apply list_lookup_insert_eq, Hlt).
  apply list_insert_insert_eq.
Qed.

Lemma shuffle_loop_heap i : forall a (h : heap) out l,
  h !! out = Some l ->
  shuffle_loop i a out h = <[out := shuffle_slots i a l]> h.
Proof.
  induction i as [|i IH]; intros a h out l Hout.
  - cbn [shuffle_loop shuffle_slots]. symmetry. apply list_insert_id, Hout.
  - cbn [shuffle_loop shuffle_slots]. destruct (mulberry32_call a) as [k a'].
    set (j := Z.to_nat (floor_mul k (Z.of_nat (S i) + 1))).
    rewrite (array_swap_heap h out l (S i) j Hout).
    pose proof (lookup_lt_Some _ _ _ Hout) as Hlt.
    rewrite (IH a' _ out (swap_slots l (S i) j)) by (apply list_lookup_insert_eq, Hlt).
    apply list_insert_insert_eq.
Qed.

(** [seededShuffle] allocates one array, the shuffled copy, and writes to
    no other. *)
Lemma seededShuffle_heap (h : heap) array pass l :
  h !! array = Some l ->
  seededShuffle array pass h = (length h, h ++ [shuffled l pass]).
Proof.
  intros Harr. unfold seededShuffle, array_slice, alloc.
  rewrite (deref_Some h array l Harr).
  assert (Hout : (h ++ [l]) !! length h = Some l) by (apply list_lookup_middle; reflexivity).
  rewrite (deref_Some _ _ _ Hout).
  rewrite (shuffle_loop_heap _ _ _ _ l Hout). f_equal.
  rewrite insert_app_r_alt by lia. rewrite Nat.sub_diag. reflexivity.
Qed.

Lemma array_slice_heap (h : heap) array l :
  h !! array = Some l -> array_slice array h = (length h, h ++ [l]).
Proof. intros Harr. unfold array_slice, alloc. rewrite (deref_Some h array l Harr). reflexivity. Qed.

(** The slots of the set that the constructor derives. *)
Lemma derive_set_heap (h : heap) passphrase :
  h !! BASE_EMO_ref = Some BASE_EMO ->
  exists set, derive_set passphrase h = (length h, h ++ [set])
              /\ set ≡ₚ BASE_EMO
              /\ set = match passphrase with
                       | Some (c :: s) => shuffled BASE_EMO (c :: s)
                       | _ => BASE_EMO
                       end.
Proof.
  intros Hbase. unfold derive_set. destruct passphrase as [[|c s]|].
  - exists BASE_EMO. rewrite (array_slice_heap h _ _ Hbase). auto.
  - exists (shuffled BASE_EMO (c :: s)). rewrite (seededShuffle_heap h _ _ _ Hbase).
    split; [reflexivity|]. split; [apply shuffled_Permutation | reflexivity].
  - exists BASE_EMO. rewrite (array_slice_heap h _ _ Hbase). auto.
Qed.

Lemma new_EmoCrypt_heap (h : heap) passphrase :
  h !! BASE_EMO_ref = Some BASE_EMO ->
  exists set, new_EmoCrypt passphrase h
              = ({| emojiSet := length h; passphrase := passphrase |}, h ++ [set])
              /\ set ≡ₚ BASE_EMO
              /\ set = match passphrase with
                       | Some (c :: s) => shuffled BASE_EMO (c :: s)
                       | _ => BASE_EMO
                       end.
Proof.
  intros Hbase. destruct (derive_set_heap h passphrase Hbase) as (set & E & Hp & Hset).
  exists set. unfold new_EmoCrypt. rewrite E. auto.
Qed.

Lemma shuffled_alphabet pass : is_alphabet (shuffled BASE_EMO pass).
Proof.
  apply (alphabet_Permutation BASE_EMO); [| exact BASE_EMO_alphabet].
  symmetry. apply shuffled_Permutation.
Qed.

(** An instance decodes what it has encoded, whatever its passphrase. *)
Lemma EmoCrypt_roundtrip (h : heap) passphrase text :
  h !! BASE_EMO_ref = Some BASE_EMO ->
  well_formed text = true -> head text <> Some 0xFEFF ->
  let this := (new_EmoCrypt passphrase h).1 in
  let h' := (new_EmoCrypt passphrase h).2 in
  decode this (encode this text h') h' = Ok text.
Proof.
  intros Hbase Hwf Hbom.
  destruct (new_EmoCrypt_heap h passphrase Hbase) as (set & -> & Hp & _).
  cbv zeta. cbn [fst snd]. unfold decode, encode. cbn [emojiSet].
  rewrite (deref_Some (h ++ [set]) (length h) set) by (apply list_lookup_middle; reflexivity).
  rewrite (emojiDecode_emojiEncode set); [| | exact Hwf].
  - rewrite utf8_decode_encode by assumption. reflexivity.
  - apply (alphabet_Permutation BASE_EMO); [symmetry; exact Hp | exact BASE_EMO_alphabet].
Qed.

End Heap.

(** C10.  [seededShuffle(a, p)] returns a new array object whose slots are
    a permutation of those of [a]; [a] and every other array keep their
    slots.  Hence a shuffle of an alphabet is an alphabet, and the
    constructor, with or without a passphrase, leaves [BASE_EMO] as it was
    and holds an alphabet that is a permutation of it. *)
Theorem seededShuffle_permutes :
  (forall (h : heap) (array : ref) (pass : jsstring) (a : list value),
     h !! array = Some a ->
     exists a',
       seededShuffle array pass h = (length h, h ++ [a'])
       /\ h !! length h = None
       /\ a' ≡ₚ a
       /\ (forall r, (r < length h)%nat ->
                     (seededShuffle array pass h).2 !! r = h !! r)
       /\ (seededShuffle array pass h).2 !! array = Some a
       /\ (is_alphabet a -> is_alphabet a'))
  /\ (forall (passphrase : option jsstring) (h : heap),
        h !! BASE_EMO_ref = Some BASE_EMO ->
        (new_EmoCrypt passphrase h).2 !! BASE_EMO_ref = Some BASE_EMO
        /\ emojiSet (new_EmoCrypt passphrase h).1 <> BASE_EMO_ref
        /\ deref (new_EmoCrypt passphrase h).2 (emojiSet (new_EmoCrypt passphrase h).1)
             ≡ₚ BASE_EMO
        /\ is_alphabet
             (deref (new_EmoCrypt passphrase h).2 (emojiSet (new_EmoCrypt passphrase h).1))).
Proof.
  split.
  - intros h array pass a Harr. exists (shuffled a pass).
    rewrite (seededShuffle_heap h array pass a Harr). cbn [snd].
    pose proof (lookup_lt_Some _ _ _ Harr) as Hlt.
    split; [reflexivity|]. split; [apply lookup_ge_None_2; lia|].
    split; [apply shuffled_Permutation|]. split; [|split].
    + intros r Hr. apply lookup_app_l, Hr.
    + rewrite lookup_app_l by exact Hlt. exact Harr.
    + apply alphabet_Permutation. symmetry. apply shuffled_Permutation.
  - intros passphrase h Hbase.
    destruct (new_EmoCrypt_heap h passphrase Hbase) as (set & -> & Hp & _).
    cbn [fst snd emojiSet]. pose proof (lookup_lt_Some _ _ _ Hbase) as Hlt.
    rewrite (deref_Some (h ++ [set]) (length h) set) by (apply list_lookup_middle; reflexivity).
    split; [rewrite lookup_app_l by exact Hlt; exact Hbase|].
    split; [unfold BASE_EMO_ref in *; lia|]. split; [exact Hp|].
    apply (alphabet_Permutation BASE_EMO); [symmetry; exact Hp | exact BASE_EMO_alphabet].
Qed.

Lemma seededShuffle_permutes_witness :
  exists a',
    seededShuffle BASE_EMO_ref (lit "mySecretPassphrase") initial_heap
      = (length initial_heap, initial_heap ++ [a'])
    /\ initial_heap !! length initial_heap = None
    /\ a' ≡ₚ BASE_EMO
    /\ (forall r, (r < length initial_heap)%nat ->
                  (seededShuffle BASE_EMO_ref (lit "mySecretPassphrase") initial_heap).2 !! r
                  = initial_heap !! r)
    /\ (seededShuffle BASE_EMO_ref (lit "mySecretPassphrase") initial_heap).2 !! BASE_EMO_ref
       = Some BASE_EMO
    /\ (is_alphabet BASE_EMO -> is_alphabet a').
Proof.
  apply (proj1 seededShuffle_permutes initial_heap BASE_EMO_ref
           (lit "mySecretPassphrase") BASE_EMO).
  reflexivity.
Defined.

(** C2.  The sequence that [seededShuffle] derives depends on the slots of
    the array and on the passphrase alone: two calls, in two runs of the
    program or one after the other in the same run, return arrays with the
    same slots, and two instances made with the same passphrase hold the
    same sequence. *)
Theorem seededShuffle_deterministic :
  (forall (pass : jsstring) (h1 h2 : heap) (r1 r2 : ref) (a : list value),
     h1 !! r1 = Some a -> h2 !! r2 = Some a ->
     deref (seededShuffle r1 pass h1).2 (seededShuffle r1 pass h1).1
     = deref (seededShuffle r2 pass h2).2 (seededShuffle r2 pass h2).1)
  /\ (forall (pass : jsstring) (h : heap) (r : ref) (a : list value),
        h !! r = Some a ->
        let first := seededShuffle r pass h in
        let second := seededShuffle r pass first.2 in
        first.1 <> second.1
        /\ deref second.2 first.1 = deref second.2 second.1)
  /\ (forall (passphrase : option jsstring) (h1 h2 : heap),
        h1 !! BASE_EMO_ref = Some BASE_EMO ->
        h2 !! BASE_EMO_ref = Some BASE_EMO ->
        deref (new_EmoCrypt passphrase h1).2 (emojiSet (new_EmoCrypt passphrase h1).1)
        = deref (new_EmoCrypt passphrase h2).2 (emojiSet (new_EmoCrypt passphrase h2).1)).
Proof.
  assert (Hone : forall pass (h : heap) r a,
            h !! r = Some a ->
            deref (seededShuffle r pass h).2 (seededShuffle r pass h).1 = shuffled a pass).
  { intros pass h r a Hr. rewrite (seededShuffle_heap h r pass a Hr). cbn [fst snd].
    apply deref_Some, list_lookup_middle. reflexivity. }
  split; [|split].
  - intros pass h1 h2 r1 r2 a H1 H2. rewrite (Hone pass h1 r1 a H1), (Hone pass h2 r2 a H2).
    reflexivity.
  - intros pass h r a Hr. cbv zeta.
    rewrite (seededShuffle_heap h r pass a Hr). cbn [fst snd].
    pose proof (lookup_lt_Some _ _ _ Hr) as Hlt.
    assert (Hr' : (h ++ [shuffled a pass]) !! r = Some a)
      by (rewrite lookup_app_l by exact Hlt; exact Hr).
    rewrite (seededShuffle_heap _ r pass a Hr'). cbn [fst snd].
    rewrite length_app. cbn [length]. split; [lia|].
    rewrite (deref_Some _ (length h) (shuffled a pass)).
    2:{ rewrite lookup_app_l by (rewrite length_app; cbn [length]; lia).
        apply list_lookup_middle. reflexivity. }
    symmetry. apply deref_Some.
    replace (length h + 1)%nat with (length (h ++ [shuffled a pass]))
      by (rewrite length_app; reflexivity).
    apply list_lookup_middle. reflexivity.
  - intros passphrase h1 h2 H1 H2.
    destruct (new_EmoCrypt_heap h1 passphrase H1) as (set1 & -> & _ & ->).
    destruct (new_EmoCrypt_heap h2 passphrase H2) as (set2 & -> & _ & ->).
    cbn [fst snd emojiSet].
    rewrite !(deref_Some (_ ++ [_]) (length _) _) by (apply list_lookup_middle; reflexivity).
    reflexivity.
Qed.

Lemma seededShuffle_deterministic_witness :
  deref (seededShuffle BASE_EMO_ref (lit "mySecretPassphrase") initial_heap).2
        (seededShuffle BASE_EMO_ref (lit "mySecretPassphrase") initial_heap).1
  = deref (seededShuffle 1%nat (lit "mySecretPassphrase") [[]; BASE_EMO]).2
          (seededShuffle 1%nat (lit "mySecretPassphrase") [[]; BASE_EMO]).1.
Proof.
  apply (proj1 seededShuffle_deterministic
           (lit "mySecretPassphrase") initial_heap [[]; BASE_EMO]
           BASE_EMO_ref 1%nat BASE_EMO).
  - reflexivity.
  - reflexivity.
Defined.

(** ** Base64: decoding what was encoded *)

Section Base64RoundTrip.

(** Induction on byte sequences by groups of three. *)
Lemma list_ind3 {X} (P : list X -> Prop) :
  P [] -> (forall a, P [a]) -> (forall a b, P [a; b]) ->
  (forall a b c rest, P rest -> P (a :: b :: c :: rest)) ->
  forall l, P l.
Proof.
  intros H0 H1 H2 H3 l.
  assert (H : forall n (l : list X), (length l <= n)%nat -> P l).
  { clear l. induction n as [|n IH]; intros l Hl.
    - destruct l; [exact H0 | cbn in Hl; lia].
    - destruct l as [|a [|b [|c rest]]]; auto.
      apply H3, IH. cbn in Hl. lia. }
  apply (H (length l)). reflexivity.
Qed.

Lemma sextet_bits a b c :
  is_byte a -> is_byte b -> is_byte c ->
  Z.shiftr a 2 = a / 4
  /\ Z.shiftl (Z.land a 3) 4 = a mod 4 * 16
  /\ Z.lor (Z.shiftl (Z.land a 3) 4) (Z.shiftr b 4) = a mod 4 * 16 + b / 16
  /\ Z.shiftl (Z.land b 15) 2 = b mod 16 * 4
  /\ Z.lor (Z.shiftl (Z.land b 15) 2) (Z.shiftr c 6) = b mod 16 * 4 + c / 64
  /\ Z.land c 63 = c mod 64.
Proof.
  unfold is_byte. intros Ha Hb Hc.
  rewrite land_3, land_15, land_63.
  rewrite (shiftr_div a 2 4), (shiftr_div b 4 16), (shiftr_div c 6 64) by (lia || reflexivity).
  rewrite (shiftl_mul _ 4 16), (shiftl_mul _ 2 4) by (lia || reflexivity).
  rewrite (lor_mul_low _ (b / 16) 4 16) by (lia || reflexivity || euclid).
  rewrite (lor_mul_low _ (c / 64) 2 4) by (lia || reflexivity || euclid).
  repeat split; reflexivity.
Qed.

Lemma encode_sextets bytes :
  Forall is_byte bytes ->
  Base64.encode bytes = map Base64.char (sextets_of bytes) ++ padding_of bytes.
Proof.
  induction bytes as [|a|a b|a b c rest IH] using list_ind3; intros Hb.
  - reflexivity.
  - apply Forall_cons in Hb as [Ha _]. cbn [Base64.encode sextets_of padding_of map app].
    destruct (sextet_bits a a a Ha Ha Ha) as (-> & -> & _).
    reflexivity.
  - apply Forall_cons in Hb as [Ha Hb]. apply Forall_cons in Hb as [Hb _].
    cbn [Base64.encode sextets_of padding_of map app].
    destruct (sextet_bits a b b Ha Hb Hb) as (-> & _ & -> & -> & _).
    reflexivity.
  - apply Forall_cons in Hb as [Ha Hb]. apply Forall_cons in Hb as [Hb Hc].
    apply Forall_cons in Hc as [Hc Hrest].
    cbn [Base64.encode sextets_of padding_of]. rewrite (IH Hrest).
    destruct (sextet_bits a b c Ha Hb Hc) as (-> & _ & -> & _ & -> & ->).
    rewrite map_app. cbn [map app]. reflexivity.
Qed.

Lemma sextets_of_range bytes : Forall is_byte bytes -> Forall is_sextet (sextets_of bytes).
Proof.
  unfold is_byte, is_sextet.
  induction bytes as [|a|a b|a b c rest IH] using list_ind3; intros Hb.
  - constructor.
  - apply Forall_cons in Hb as [Ha _]. cbn [sextets_of]. repeat constructor; euclid.
  - apply Forall_cons in Hb as [Ha Hb]. apply Forall_cons in Hb as [Hb _].
    cbn [sextets_of]. repeat constructor; euclid.
  - apply Forall_cons in Hb as [Ha Hb]. apply Forall_cons in Hb as [Hb Hc].
    apply Forall_cons in Hc as [Hc Hrest].
    cbn [sextets_of app]. repeat (constructor; [euclid|]). apply IH, Hrest.
Qed.

Lemma decode_sextets_of bytes :
  Forall is_byte bytes -> Base64.decode (sextets_of bytes) = bytes.
Proof.
  unfold is_byte.
  induction bytes as [|a|a b|a b c rest IH] using list_ind3; intros Hb.
  - reflexivity.
  - apply Forall_cons in Hb as [Ha _]. cbn [sextets_of Base64.decode].
    rewrite (shiftr_div _ 4 16) by (lia || reflexivity). f_equal. euclid.
  - apply Forall_cons in Hb as [Ha Hb]. apply Forall_cons in Hb as [Hb _].
    cbn [sextets_of Base64.decode]. cbv zeta. rewrite land_255.
    rewrite (shiftr_div _ 2 4), (shiftr_div _ 8 256) by (lia || reflexivity).
    f_equal; [euclid|]. f_equal. euclid.
  - apply Forall_cons in Hb as [Ha Hb]. apply Forall_cons in Hb as [Hb Hc].
    apply Forall_cons in Hc as [Hc Hrest].
    cbn [sextets_of app Base64.decode]. cbv zeta. rewrite (IH Hrest). rewrite !land_255.
    rewrite (shiftr_div _ 16 65536), (shiftr_div _ 8 256) by (lia || reflexivity).
    cbn [app]. f_equal; [euclid|]. f_equal; [euclid|]. f_equal. euclid.
Qed.

End Base64RoundTrip.

Section Atob.

Lemma char_facts s :
  is_sextet s ->
  Base64.index (Base64.char s) = Some s
  /\ Base64.is_whitespace (Base64.char s) = false
  /\ (Base64.char s =? Base64.pad) = false.
Proof.
  unfold is_sextet. intros Hs. rewrite <- (Z2Nat.id s) by lia.
  assert (Hn : (Z.to_nat s < 64)%nat) by lia. revert Hn.
  generalize (Z.to_nat s). intros n Hn.
  do 64 (destruct n as [|n]; [vm_compute; repeat split; reflexivity|]).
  lia.
Qed.

Lemma indices_chars sextets :
  Forall is_sextet sextets -> Base64.indices (map Base64.char sextets) = Some sextets.
Proof.
  induction 1 as [|s l Hs _ IH]; [reflexivity|].
  cbn [map Base64.indices]. destruct (char_facts s Hs) as (-> & _). rewrite IH. reflexivity.
Qed.

Lemma filter_whitespace_encoded sextets padding :
  Forall is_sextet sextets -> Forall (fun c => c = Base64.pad) padding ->
  List.filter (fun c => negb (Base64.is_whitespace c)) (map Base64.char sextets ++ padding)
  = map Base64.char sextets ++ padding.
Proof.
  intros Hs Hp. induction Hs as [|s l Hs _ IH].
  - cbn [map app]. induction Hp as [|p l -> _ IH]; [reflexivity|].
    cbn [List.filter]. change (Base64.is_whitespace Base64.pad) with false.
    cbn [negb]. rewrite IH. reflexivity.
  - cbn [map app List.filter]. destruct (char_facts s Hs) as (_ & -> & _).
    cbn [negb]. rewrite IH. reflexivity.
Qed.

Lemma strip_padding_body (body padding : jsstring) :
  Forall (fun c => (c =? Base64.pad) = false) body ->
  padding = [] \/ padding = [Base64.pad] \/ padding = [Base64.pad; Base64.pad] ->
  Z.of_nat (length (body ++ padding)) mod 4 = 0 ->
  Base64.strip_padding (body ++ padding) = body.
Proof.
  intros Hbody Hpad Hlen. unfold Base64.strip_padding. rewrite Hlen. cbn [Z.eqb].
  rewrite rev_app_distr.
  assert (Hrev : Forall (fun c => (c =? Base64.pad) = false) (rev body)).
  { apply Forall_forall. intros c Hc. rewrite Forall_forall in Hbody.
    apply Hbody. apply list_elem_of_In. apply in_rev. apply list_elem_of_In. exact Hc. }
  destruct Hpad as [-> | [-> | ->]].
  - rewrite app_nil_r. cbn [rev app].
    destruct (rev body) as [|p1 [|p2 r]]; [reflexivity..|].
    apply Forall_cons in Hrev as [-> _]. reflexivity.
  - cbn [rev app]. destruct (rev body) as [|p2 r] eqn:E.
    + apply (f_equal (@rev Z)) in E. rewrite rev_involutive in E. subst body.
      cbn in Hlen. discriminate.
    + apply Forall_cons in Hrev as [-> _].
      change (Base64.pad =? Base64.pad) with true. cbn [andb].
      change (rev (p2 :: r) = body). rewrite <- E. apply rev_involutive.
  - cbn [rev app]. change (Base64.pad =? Base64.pad) with true. cbn [andb].
    apply rev_involutive.
Qed.

Lemma encoded_lengths bytes :
  Z.of_nat (length (sextets_of bytes) + length (padding_of bytes)) mod 4 = 0
  /\ Z.of_nat (length (sextets_of bytes)) mod 4 <> 1
  /\ (padding_of bytes = [] \/ padding_of bytes = [Base64.pad]
      \/ padding_of bytes = [Base64.pad; Base64.pad]).
Proof.
  induction bytes as [|a|a b|a b c rest IH] using list_ind3.
  - cbn. split; [reflexivity|]. split; [discriminate | auto].
  - cbn. split; [reflexivity|]. split; [discriminate | auto].
  - cbn. split; [reflexivity|]. split; [discriminate | auto].
  - destruct IH as (H1 & H2 & H3). cbn [sextets_of padding_of app length].
    split; [|split; [|exact H3]]; euclid.
Qed.

Lemma atob_encode bytes :
  Forall is_byte bytes -> atob (Base64.encode bytes) = Ok bytes.
Proof.
  intros Hb. pose proof (sextets_of_range bytes Hb) as Hs.
  destruct (encoded_lengths bytes) as (Hlen & Hlen' & Hpad).
  unfold atob. rewrite (encode_sextets bytes Hb).
  rewrite filter_whitespace_encoded; [| exact Hs |].
  2:{ destruct Hpad as [-> | [-> | ->]]; repeat constructor. }
  rewrite strip_padding_body; [| | exact Hpad |].
  - rewrite length_map.
    destruct (Z.eqb_spec (Z.of_nat (length (sextets_of bytes)) mod 4) 1); [contradiction|].
    rewrite (indices_chars _ Hs). rewrite (decode_sextets_of bytes Hb). reflexivity.
  - apply Forall_map. eapply Forall_impl; [exact Hs|].
    intros s Hs'. apply (char_facts s Hs').
  - rewrite length_app, length_map. exact Hlen.
Qed.

Lemma fromCharCode_bytes max_args buf :
  Forall is_byte buf -> (length buf <= max_args)%nat ->
  fromCharCode max_args buf = Ok buf.
Proof.
  intros Hb Hfit. unfold fromCharCode.
  destruct (decide (length buf <= max_args)%nat) as [_|]; [|contradiction]. f_equal.
  clear Hfit. induction Hb as [|b l Hb _ IH]; [reflexivity|]. cbn [map]. rewrite IH.
  unfold is_byte in Hb. rewrite Z.mod_small by lia. reflexivity.
Qed.

Lemma fromCharCode_too_many max_args buf :
  (max_args < length buf)%nat -> fromCharCode max_args buf = Err RangeError.
Proof.
  intros Hlong. unfold fromCharCode.
  destruct (decide (length buf <= max_args)%nat); [lia | reflexivity].
Qed.

Lemma btoa_bytes buf : Forall is_byte buf -> btoa buf = Ok (Base64.encode buf).
Proof.
  intros Hb. unfold btoa.
  assert (F : forallb (fun c => c <=? 0xFF) buf = true).
  { apply forallb_forall. intros c Hc. rewrite Forall_forall in Hb.
    apply list_elem_of_In in Hc. specialize (Hb c Hc). unfold is_byte in Hb.
    apply Z.leb_le. lia. }
  rewrite F. reflexivity.
Qed.

Lemma bytes_of_binary_string_bytes l :
  Forall is_byte l -> bytes_of_binary_string l = l.
Proof.
  unfold bytes_of_binary_string.
  induction 1 as [|b l Hb _ IH]; [reflexivity|].
  unfold is_byte in Hb. rewrite spread_single.
  - cbn [map head default]. rewrite IH. unfold JS.to_uint8.
    unfold id. rewrite Z.mod_small by lia. reflexivity.
  - destruct (is_high_surrogate_spec b); [lia | reflexivity].
Qed.

Lemma typed_set_at (pre src : list Z) n :
  typed_set (pre ++ replicate (length src + n) 0) src (length pre)
  = Ok (pre ++ src ++ replicate n 0).
Proof.
  unfold typed_set.
  destruct (decide _) as [_|Hn];
    [| exfalso; apply Hn; rewrite length_app, length_replicate; lia].
  rewrite take_app_length, drop_app_add, drop_replicate.
  replace (length src + n - length src)%nat with n by lia. reflexivity.
Qed.

Lemma typed_set_first (src : list Z) n :
  typed_set (replicate (length src + n) 0) src 0 = Ok (src ++ replicate n 0).
Proof. apply (typed_set_at [] src n). Qed.

Lemma lit_AESv1 : lit "AESv1:" = [65; 69; 83; 118; 49; 58].
Proof. vm_compute. reflexivity. Qed.

Lemma startsWith_AESv1 rest : startsWith (lit "AESv1:" ++ rest) (lit "AESv1:") = true.
Proof. rewrite lit_AESv1. reflexivity. Qed.

Lemma drop_AESv1 (rest : jsstring) : drop 6 (lit "AESv1:" ++ rest) = rest.
Proof. rewrite lit_AESv1. reflexivity. Qed.

(** The exceptions of [emojiDecode] are its own two. *)
Lemma emojiDecode_errors emojiStr emojiArr e :
  emojiDecode emojiStr emojiArr = Err e ->
  e = InvalidLength \/ exists c, e = UnknownEmoji c.
Proof.
  rewrite emojiDecode_unfold.
  assert (H : forall chars e', map_result (lookup_symbol emojiArr) chars = Err e' ->
                               exists c, e' = UnknownEmoji c).
  { induction chars as [|c chars IH]; intros e'; [discriminate|].
    cbn [map_result]. unfold lookup_symbol at 1.
    destruct (_ !! VString c); cbn [bind_result].
    - destruct (map_result _ chars) as [ns|e'']; cbn [bind_result]; [discriminate|].
      intros [= <-]. apply IH. reflexivity.
    - intros [= <-]. eauto. }
  destruct (map_result _ _) as [ns|e'] eqn:E; cbn [bind_result].
  - destruct (negb _); [intros [= <-]; auto | discriminate].
  - intros [= <-]. right. apply (H _ _ E).
Qed.

End Atob.

(** ** Runs of the asynchronous functions *)

Section Runs.

Context {R : Type}.

Lemma runs_Ret_inv (x : R) tr r : runs (Ret x) tr r -> tr = [] /\ r = Ok x.
Proof. intros H. inversion H; subst. auto. Qed.

Lemma runs_Throw_inv e tr (r : result R) : runs (Throw e) tr r -> tr = [] /\ r = Err e.
Proof. intros H. inversion H; subst. auto. Qed.

Lemma runs_lift_inv (x : result R) tr r : runs (lift x) tr r -> tr = [] /\ r = x.
Proof. destruct x; cbn [lift]; [apply runs_Ret_inv | apply runs_Throw_inv]. Qed.

Lemma runs_Random_inv n (k : list Z -> prog R) tr r :
  runs (GetRandomValues n k) tr r ->
  exists bytes tr', length bytes = n /\ Forall is_byte bytes
                    /\ runs (k bytes) tr' r /\ tr = Random n bytes :: tr'.
Proof. intros H. inversion H; subst. eauto 10. Qed.

Lemma runs_Encrypt_inv key iv data (k : list Z -> prog R) tr r :
  runs (SubtleEncrypt key iv data k) tr r ->
  exists ct tr', Forall is_byte ct /\ runs (k ct) tr' r
                 /\ tr = Encrypted key iv data ct :: tr'.
Proof. intros H. inversion H; subst. eauto 10. Qed.

Lemma runs_Decrypt_inv key iv data (k : option (list Z) -> prog R) tr r :
  runs (SubtleDecrypt key iv data k) tr r ->
  exists pt tr', runs (k pt) tr' r /\ tr = Decrypted key iv data pt :: tr'.
Proof. intros H. inversion H; subst. eauto 10. Qed.

End Runs.

Section Envelope.

Lemma buffer_layout {X} (salt iv ct : list Z) (f : list Z -> result X) :
  bind_result (typed_set (replicate (length salt + length iv + length ct) 0) salt 0)
    (fun buf => bind_result (typed_set buf iv (length salt))
    (fun buf => bind_result (typed_set buf ct (length salt + length iv)) f))
  = f (salt ++ iv ++ ct).
Proof.
  rewrite <- Nat.add_assoc, typed_set_first. cbn [bind_result].
  rewrite typed_set_at. cbn [bind_result].
  replace (salt ++ iv ++ replicate (length ct) 0)
    with ((salt ++ iv) ++ replicate (length ct + 0) 0)
    by (rewrite Nat.add_0_r, app_assoc; reflexivity).
  rewrite <- length_app, typed_set_at. cbn [bind_result replicate].
  rewrite app_nil_r, <- app_assoc. reflexivity.
Qed.

(** What [aesEncrypt] goes on with once the platform has answered: the
    base64 of the buffer when the engine takes its bytes as arguments, the
    [RangeError] of the call when it does not. *)
Lemma aesEncrypt_tail max_args (salt iv ct : list Z) :
  Forall is_byte salt -> Forall is_byte iv -> Forall is_byte ct ->
  lift (bind_result (typed_set (replicate (length salt + length iv + length ct) 0) salt 0)
          (fun buf => bind_result (typed_set buf iv (length salt))
          (fun buf => bind_result (typed_set buf ct (length salt + length iv))
          (fun buf => bind_result (fromCharCode max_args buf) btoa))))
  = if decide (length (salt ++ iv ++ ct) <= max_args)%nat
    then Ret (Base64.encode (salt ++ iv ++ ct))
    else Throw RangeError.
Proof.
  intros Hs Hi Hc. rewrite buffer_layout.
  assert (Hall : Forall is_byte (salt ++ iv ++ ct)).
  { apply Forall_app. split; [exact Hs|]. apply Forall_app. auto. }
  destruct (decide (length (salt ++ iv ++ ct) <= max_args)%nat) as [Hfit|Hlong].
  - rewrite (fromCharCode_bytes _ _ Hall Hfit). cbn [bind_result].
    rewrite (btoa_bytes _ Hall). reflexivity.
  - rewrite fromCharCode_too_many by lia. reflexivity.
Qed.

Lemma runs_encryptAndEncode max_args this text password (h : heap) tr r :
  runs (encryptAndEncode max_args this text password h) tr r ->
  exists iv salt ct,
    length iv = 12%nat /\ length salt = 16%nat
    /\ Forall is_byte iv /\ Forall is_byte salt /\ Forall is_byte ct
    /\ tr = [Random 12 iv; Random 16 salt;
             Encrypted (deriveKeyFromPassword password salt) iv
               (Utf8.encode (encode this text h)) ct]
    /\ r = if decide (length (salt ++ iv ++ ct) <= max_args)%nat
           then Ok (lit "AESv1:" ++ Base64.encode (salt ++ iv ++ ct))
           else Err RangeError.
Proof.
  unfold encryptAndEncode, aesEncrypt. cbn [bind]. intros H.
  apply runs_Random_inv in H as (iv & tr1 & Hiv & Hivb & H & ->).
  apply runs_Random_inv in H as (salt & tr2 & Hsalt & Hsaltb & H & ->).
  apply runs_Encrypt_inv in H as (ct & tr3 & Hctb & H & ->).
  rewrite (aesEncrypt_tail max_args salt iv ct Hsaltb Hivb Hctb) in H.
  exists iv, salt, ct.
  destruct (decide (length (salt ++ iv ++ ct) <= max_args)%nat); cbn [bind] in H.
  - apply runs_Ret_inv in H as [-> ->]. auto 10.
  - apply runs_Throw_inv in H as [-> ->]. auto 10.
Qed.

Lemma encryptAndEncode_runs max_args this text password (h : heap) iv salt ct :
  length iv = 12%nat -> length salt = 16%nat ->
  Forall is_byte iv -> Forall is_byte salt -> Forall is_byte ct ->
  runs (encryptAndEncode max_args this text password h)
    [Random 12 iv; Random 16 salt;
     Encrypted (deriveKeyFromPassword password salt) iv
       (Utf8.encode (encode this text h)) ct]
    (if decide (length (salt ++ iv ++ ct) <= max_args)%nat
     then Ok (lit "AESv1:" ++ Base64.encode (salt ++ iv ++ ct))
     else Err RangeError).
Proof.
  intros Hiv Hsalt Hivb Hsaltb Hctb. unfold encryptAndEncode, aesEncrypt. cbn [bind].
  apply runs_Random; [exact Hiv | exact Hivb |].
  apply runs_Random; [exact Hsalt | exact Hsaltb |].
  apply runs_Encrypt; [exact Hctb|].
  rewrite (aesEncrypt_tail max_args salt iv ct Hsaltb Hivb Hctb).
  destruct (decide (length (salt ++ iv ++ ct) <= max_args)%nat); cbn [bind].
  - apply runs_Ret.
  - apply runs_Throw.
Qed.

(** [aesDecrypt] cuts what [atob] returns at 16 and at 28, whatever its
    length, and asks for the decryption of the parts. *)
Lemma aesDecrypt_split b64 password binary :
  atob b64 = Ok binary ->
  aesDecrypt b64 password =
    let raw := bytes_of_binary_string binary in
    SubtleDecrypt (deriveKeyFromPassword password (take 16 raw))
      (take 12 (drop 16 raw)) (drop 28 raw)
      (fun pt => match pt with
                 | None => Throw OperationError
                 | Some pt => Ret (Utf8.decode pt)
                 end).
Proof. intros E. unfold aesDecrypt. rewrite E. reflexivity. Qed.

Lemma runs_decryptAndDecode this encryptedText password (h : heap) binary tr r :
  startsWith encryptedText (lit "AESv1:") = true ->
  atob (drop 6 encryptedText) = Ok binary ->
  runs (decryptAndDecode this encryptedText password h) tr r ->
  let raw := bytes_of_binary_string binary in
  exists pt,
    tr = [Decrypted (deriveKeyFromPassword password (take 16 raw))
            (take 12 (drop 16 raw)) (drop 28 raw) pt]
    /\ r = match pt with
           | None => Err OperationError
           | Some pt => decode this (Utf8.decode pt) h
           end.
Proof.
  intros Hstart Hatob. unfold decryptAndDecode. rewrite Hstart. cbn [negb].
  rewrite (aesDecrypt_split _ password binary Hatob). cbv zeta. cbn [bind]. intros H.
  apply runs_Decrypt_inv in H as (pt & tr' & H & ->). exists pt.
  destruct pt as [pt|]; cbn [bind] in H.
  - apply runs_lift_inv in H as [-> ->]. auto.
  - apply runs_Throw_inv in H as [-> ->]. auto.
Qed.

End Envelope.

(** C5.  Every run of [encryptAndEncode] draws a 12-byte nonce and a
    16-byte salt and encrypts under the key derived from the password and
    that salt; it then either rejects with the [RangeError] of
    [String.fromCharCode(...buf)], when salt, nonce and ciphertext are more
    bytes than the engine takes arguments, or resolves to a token, and
    every token is "AESv1:" followed by the base64 encoding of salt, nonce
    and ciphertext, in that order.  Both outcomes occur, for every answer
    of the platform.  [aesDecrypt] cuts the decoded bytes at 16 and 28, so
    that for such a token [decryptAndDecode] asks for the decryption of
    exactly that ciphertext under the key of that salt with that nonce. *)
Theorem envelope_layout :
  (forall max_args this text password (h : heap) tr r,
     runs (encryptAndEncode max_args this text password h) tr r ->
     exists iv salt ct,
       length iv = 12%nat /\ length salt = 16%nat
       /\ Forall is_byte iv /\ Forall is_byte salt /\ Forall is_byte ct
       /\ tr = [Random 12 iv; Random 16 salt;
                Encrypted (deriveKeyFromPassword password salt) iv
                  (Utf8.encode (encode this text h)) ct]
       /\ r = if decide (length (salt ++ iv ++ ct) <= max_args)%nat
              then Ok (lit "AESv1:" ++ Base64.encode (salt ++ iv ++ ct))
              else Err RangeError)
  /\ (forall max_args this text password (h : heap) iv salt ct,
        length iv = 12%nat -> length salt = 16%nat ->
        Forall is_byte iv -> Forall is_byte salt -> Forall is_byte ct ->
        runs (encryptAndEncode max_args this text password h)
          [Random 12 iv; Random 16 salt;
           Encrypted (deriveKeyFromPassword password salt) iv
             (Utf8.encode (encode this text h)) ct]
          (if decide (length (salt ++ iv ++ ct) <= max_args)%nat
           then Ok (lit "AESv1:" ++ Base64.encode (salt ++ iv ++ ct))
           else Err RangeError))
  /\ (forall b64 password binary,
        atob b64 = Ok binary ->
        aesDecrypt b64 password =
          let raw := bytes_of_binary_string binary in
          SubtleDecrypt (deriveKeyFromPassword password (take 16 raw))
            (take 12 (drop 16 raw)) (drop 28 raw)
            (fun pt => match pt with
                       | None => Throw OperationError
                       | Some pt => Ret (Utf8.decode pt)
                       end))
  /\ (forall this password (h : heap) salt iv ct tr r,
        length salt = 16%nat -> length iv = 12%nat ->
        Forall is_byte salt -> Forall is_byte iv -> Forall is_byte ct ->
        runs (decryptAndDecode this (lit "AESv1:" ++ Base64.encode (salt ++ iv ++ ct))
                password h) tr r ->
        exists pt, tr = [Decrypted (deriveKeyFromPassword password salt) iv ct pt]).
Proof.
  split; [exact runs_encryptAndEncode|]. split; [exact encryptAndEncode_runs|].
  split; [exact aesDecrypt_split|].
  intros this password h salt iv ct tr r Hsalt Hiv Hsaltb Hivb Hctb H.
  assert (Hall : Forall is_byte (salt ++ iv ++ ct)).
  { apply Forall_app. split; [exact Hsaltb|]. apply Forall_app. auto. }
  eapply runs_decryptAndDecode in H as (pt & -> & _).
  2: apply startsWith_AESv1.
  2:{ rewrite drop_AESv1. apply atob_encode, Hall. }
  exists pt. rewrite (bytes_of_binary_string_bytes _ Hall).
  rewrite take_app_length' by (symmetry; exact Hsalt).
  rewrite drop_app_length' by (symmetry; exact Hsalt).
  rewrite take_app_length' by (symmetry; exact Hiv).
  replace 28%nat with (length salt + length iv)%nat by lia.
  rewrite drop_app_add, drop_app_length. reflexivity.
Qed.

Lemma envelope_layout_witness :
  runs (encryptAndEncode 100 {| emojiSet := BASE_EMO_ref; passphrase := None |}
          (lit "A") (lit "pw") initial_heap)
    [Random 12 (replicate 12 2); Random 16 (replicate 16 1);
     Encrypted (deriveKeyFromPassword (lit "pw") (replicate 16 1)) (replicate 12 2)
       (Utf8.encode (encode {| emojiSet := BASE_EMO_ref; passphrase := None |}
                       (lit "A") initial_heap))
       [3; 4; 5]]
    (Ok (lit "AESv1:" ++ Base64.encode (replicate 16 1 ++ replicate 12 2 ++ [3; 4; 5]))).
Proof.
  apply (proj1 (proj2 envelope_layout) 100%nat
           {| emojiSet := BASE_EMO_ref; passphrase := None |}
           (lit "A") (lit "pw") initial_heap (replicate 12 2) (replicate 16 1) [3; 4; 5]).
  - reflexivity.
  - reflexivity.
  - cbn [replicate]. repeat constructor; unfold is_byte; lia.
  - cbn [replicate]. repeat constructor; unfold is_byte; lia.
  - repeat constructor; unfold is_byte; lia.
Defined.

Section FormatCheck.

Lemma atob_error data e : atob data = Err e -> e = InvalidCharacterError.
Proof.
  unfold atob. destruct (_ =? 1); [intros [= <-]; reflexivity|].
  destruct (Base64.indices _); [discriminate | intros [= <-]; reflexivity].
Qed.

Lemma decode_not_InvalidFormat this emojiText (h : heap) :
  decode this emojiText h <> Err InvalidFormat.
Proof.
  unfold decode. intros H. apply emojiDecode_errors in H as [H | [c H]]; discriminate.
Qed.

End FormatCheck.

(** C6 as stated fails: the payload below decodes to three bytes, fewer
    than the 28 of salt and nonce, and yet every run goes on to ask for a
    decryption, of an empty ciphertext under an empty nonce, and none ends
    with the invalid-format error. *)
Lemma short_envelope_counterexample :
  let this := {| emojiSet := BASE_EMO_ref; passphrase := None |} in
  let token := lit "AESv1:QUJD" in
  startsWith token (lit "AESv1:") = true
  /\ atob (drop 6 token) = Ok [65; 66; 67]
  /\ (length (bytes_of_binary_string [65; 66; 67]%Z) < 28)%nat
  /\ runs (decryptAndDecode this token (lit "pw") initial_heap)
       [Decrypted (deriveKeyFromPassword (lit "pw") [65; 66; 67]) [] [] None]
       (Err OperationError)
  /\ (forall tr r,
        runs (decryptAndDecode this token (lit "pw") initial_heap) tr r ->
        r <> Err InvalidFormat
        /\ exists pt,
             tr = [Decrypted (deriveKeyFromPassword (lit "pw") [65; 66; 67]) [] [] pt]).
Proof.
  cbv zeta.
  assert (Hstart : startsWith (lit "AESv1:QUJD") (lit "AESv1:") = true)
    by (vm_compute; reflexivity).
  assert (Hatob : atob (drop 6 (lit "AESv1:QUJD")) = Ok [65; 66; 67])
    by (vm_compute; reflexivity).
  split; [exact Hstart|]. split; [exact Hatob|]. split; [vm_compute; lia|]. split.
  - unfold decryptAndDecode. rewrite Hstart. cbn [negb].
    rewrite (aesDecrypt_split _ _ _ Hatob). cbv zeta. cbn [bind].
    apply (runs_Decrypt (deriveKeyFromPassword (lit "pw") [65; 66; 67]) [] [] _ None).
    + discriminate.
    + cbn [bind]. apply runs_Throw.
  - intros tr r H.
    apply (runs_decryptAndDecode _ _ _ _ _ _ _ Hstart Hatob) in H as (pt & -> & ->).
    split; [| exists pt; reflexivity].
    destruct pt; [apply decode_not_InvalidFormat | discriminate].
Qed.

(** C6 (as amended).  [decryptAndDecode] fails with the invalid-format
    error, before anything is asked of the platform, exactly when the token
    does not start with "AESv1:".  Of a token that does, the rest is
    base64-decoded, which fails with [InvalidCharacterError] when it is not
    base64; no length is checked: the decoded bytes are cut at 16 and 28
    whatever their number and handed to the decryption, on whose answer
    the outcome depends, and which is never the invalid-format error. *)
Theorem unwrap_format_check :
  (forall this encryptedText password (h : heap) tr r,
     startsWith encryptedText (lit "AESv1:") = false ->
     runs (decryptAndDecode this encryptedText password h) tr r ->
     tr = [] /\ r = Err InvalidFormat)
  /\ (forall this encryptedText password (h : heap),
        startsWith encryptedText (lit "AESv1:") = false ->
        runs (decryptAndDecode this encryptedText password h) [] (Err InvalidFormat))
  /\ (forall this encryptedText password (h : heap) e,
        startsWith encryptedText (lit "AESv1:") = true ->
        atob (drop 6 encryptedText) = Err e ->
        e = InvalidCharacterError
        /\ decryptAndDecode this encryptedText password h = Throw InvalidCharacterError)
  /\ (forall this encryptedText password (h : heap) binary tr r,
        startsWith encryptedText (lit "AESv1:") = true ->
        atob (drop 6 encryptedText) = Ok binary ->
        runs (decryptAndDecode this encryptedText password h) tr r ->
        let raw := bytes_of_binary_string binary in
        r <> Err InvalidFormat
        /\ exists pt,
             tr = [Decrypted (deriveKeyFromPassword password (take 16 raw))
                     (take 12 (drop 16 raw)) (drop 28 raw) pt]
             /\ r = match pt with
                    | None => Err OperationError
                    | Some pt => decode this (Utf8.decode pt) h
                    end).
Proof.
  split; [|split; [|split]].
  - intros this tok pw h tr r Hstart. unfold decryptAndDecode. rewrite Hstart. cbn [negb].
    apply runs_Throw_inv.
  - intros this tok pw h Hstart. unfold decryptAndDecode. rewrite Hstart. cbn [negb].
    apply runs_Throw.
  - intros this tok pw h e Hstart Hatob.
    pose proof (atob_error _ _ Hatob) as ->. split; [reflexivity|].
    unfold decryptAndDecode, aesDecrypt. rewrite Hstart, Hatob. reflexivity.
  - intros this tok pw h binary tr r Hstart Hatob H.
    apply (runs_decryptAndDecode _ _ _ _ _ _ _ Hstart Hatob) in H as (pt & -> & ->).
    cbv zeta. split; [| exists pt; auto].
    destruct pt; [apply decode_not_InvalidFormat | discriminate].
Qed.

Lemma unwrap_format_check_witness :
  runs (decryptAndDecode {| emojiSet := BASE_EMO_ref; passphrase := None |}
          (lit "😃😁") (lit "pw") initial_heap) [] (Err InvalidFormat).
Proof.
  apply (proj1 (proj2 unwrap_format_check)
           {| emojiSet := BASE_EMO_ref; passphrase := None |}
           (lit "😃😁") (lit "pw") initial_heap).
  vm_compute. reflexivity.
Defined.

(** * Further properties of the code *)

(** ** The codec on every string *)

Section CodecOnStrings.

Lemma scalar_values_scalar (s : jsstring) :
  Forall is_code_unit s -> Forall is_scalar (scalar_values s).
Proof.
  unfold is_code_unit.
  induction s as [|u rest IH1 IH2] using jsstring_ind2; intros Hs; [constructor|].
  apply Forall_cons in Hs as [Hu Hrest]. cbn [scalar_values].
  assert (Hrepl : is_scalar 0xFFFD) by (unfold is_scalar; lia).
  destruct (is_high_surrogate_spec u) as [Hh|Hh].
  - destruct rest as [|v rest']; [constructor; [exact Hrepl | constructor]|].
    destruct (is_low_surrogate_spec v) as [Hl|Hl].
    + constructor; [unfold is_scalar; lia|].
      apply (IH2 v rest' eq_refl). apply Forall_cons in Hrest as [_ H]. exact H.
    + constructor; [exact Hrepl | apply IH1, Hrest].
  - destruct (is_low_surrogate_spec u) as [Hl|Hl].
    + constructor; [exact Hrepl | apply IH1, Hrest].
    + constructor; [unfold is_scalar; lia | apply IH1, Hrest].
Qed.

Lemma encode_bytes_units (s : jsstring) : Forall is_code_unit s -> Forall is_byte (Utf8.encode s).
Proof.
  intros Hs. pose proof (scalar_values_scalar s Hs) as Hsc. unfold Utf8.encode.
  clear Hs. induction Hsc as [|cp cps Hcp _ IH]; [constructor|].
  cbn [flat_map]. apply Forall_app. split; [apply encode_scalar_bytes, Hcp | exact IH].
Qed.

Lemma nibbles_of_length bytes : length (nibbles_of bytes) = (2 * length bytes)%nat.
Proof.
  unfold nibbles_of. induction bytes as [|b l IH]; [reflexivity|].
  cbn [flat_map app length]. rewrite IH. lia.
Qed.

(** [encMap.get(n)] is [emojiArr[n]], [undefined] past the end. *)
Lemma map_get_array_get (emojiArr : list value) n :
  0 <= n -> map_get (buildMaps emojiArr).1 n = array_get emojiArr (Z.to_nat n).
Proof.
  intros Hn. unfold map_get, array_get.
  rewrite <- (Z2Nat.id n) at 1 by lia. rewrite encMap_lookup. reflexivity.
Qed.

Lemma well_formed_symbol cp rest :
  is_scalar cp -> well_formed rest = true -> well_formed (utf16_units cp ++ rest) = true.
Proof.
  intros [Hr Hs] Hrest. destruct (Z.lt_ge_cases cp 0x10000) as [Hlt|Hge].
  - rewrite utf16_units_bmp by lia. cbn [app well_formed].
    destruct (is_high_surrogate_spec cp); [lia|].
    destruct (is_low_surrogate_spec cp); [lia|].
    rewrite Hrest. cbn [negb]. rewrite !andb_true_r.
    apply andb_true_intro. split; apply Z.leb_le; lia.
  - destruct (utf16_units_supplementary cp ltac:(lia)) as (u & v & -> & Hu & Hv).
    cbn [app well_formed].
    destruct (is_high_surrogate_spec u); [|lia].
    destruct (is_low_surrogate_spec v); [|lia].
    exact Hrest.
Qed.

(** The symbols that [emojiEncode] writes for a byte sequence. *)
Lemma encoded_symbols (emojiArr : list value) bytes :
  is_alphabet emojiArr -> Forall is_byte bytes ->
  let out :=
    concat (map (fun b => add_joined (map_get (buildMaps emojiArr).1 (JS.sar b 4))
                                     (map_get (buildMaps emojiArr).1 (JS.and b 15)))
                bytes) in
  Forall2 (fun c n => emojiArr !! Z.to_nat n = Some (VString c))
          (spread out) (nibbles_of bytes)
  /\ well_formed out = true.
Proof.
  intros Halpha Hb. cbv zeta.
  induction Hb as [|b bytes Hb _ [IH1 IH2]]; [split; [constructor | reflexivity]|].
  cbn [map concat].
  destruct (high_nibble b Hb) as [-> Hhi]. destruct (low_nibble b Hb) as [-> Hlo].
  assert (Hat : forall n, 0 <= n < 16 ->
            exists cp, is_scalar cp
              /\ map_get (buildMaps emojiArr).1 n = VString (utf16_units cp)
              /\ emojiArr !! Z.to_nat n = Some (VString (utf16_units cp))).
  { intros n Hn. destruct (alphabet_nibble emojiArr Halpha n Hn) as (cp & Hcp & Hget & _).
    exists cp. split; [exact Hcp|]. split; [exact Hget|].
    rewrite map_get_array_get in Hget by lia. unfold array_get in Hget.
    destruct (emojiArr !! Z.to_nat n) as [v|]; [cbn in Hget; congruence | discriminate]. }
  destruct (Hat _ Hhi) as (cp1 & Hcp1 & -> & Hl1).
  destruct (Hat _ Hlo) as (cp2 & Hcp2 & -> & Hl2).
  cbn [add_joined]. rewrite <- !app_assoc. split.
  - rewrite !spread_symbol by assumption.
    unfold nibbles_of. cbn [flat_map app]. repeat (constructor; [assumption|]). exact IH1.
  - apply well_formed_symbol; [exact Hcp1|]. apply well_formed_symbol; assumption.
Qed.

Lemma emojiEncode_well_formed (emojiArr : list value) (str : jsstring) :
  is_alphabet emojiArr -> Forall is_code_unit str ->
  well_formed (emojiEncode str emojiArr) = true.
Proof.
  intros Halpha Hs. rewrite emojiEncode_unfold.
  apply (encoded_symbols emojiArr (Utf8.encode str) Halpha (encode_bytes_units str Hs)).
Qed.

Lemma well_formed_units (s : jsstring) : well_formed s = true -> Forall is_code_unit s.
Proof.
  unfold is_code_unit.
  induction s as [|u rest IH1 IH2] using jsstring_ind2; intros Hwf; [constructor|].
  cbn [well_formed] in Hwf. destruct (is_high_surrogate_spec u) as [Hu|Hu].
  - destruct rest as [|v rest']; [discriminate|].
    apply andb_true_iff in Hwf as [Hv Hwf].
    destruct (is_low_surrogate_spec v) as [Hv'|]; [|discriminate].
    constructor; [lia|]. constructor; [lia|]. apply (IH2 v rest' eq_refl Hwf).
  - apply andb_true_iff in Hwf as [Hwf Hrest].
    apply andb_true_iff in Hwf as [Hwf _].
    apply andb_true_iff in Hwf as [H0 H1]. apply Z.leb_le in H0, H1.
    constructor; [lia | apply IH1, Hrest].
Qed.

End CodecOnStrings.

(** X1.  On an array without repetitions the two maps of [buildMaps] are
    inverse to each other: [encMap] takes an index to a symbol exactly when
    [decMap] takes that symbol to that index. *)
Theorem buildMaps_inverse (emojiArr : list value) (i : Z) (v : value) :
  NoDup emojiArr ->
  ((buildMaps emojiArr).1 !! i = Some v <-> (buildMaps emojiArr).2 !! v = Some i).
Proof.
  intros Hnd. split.
  - intros Henc.
    destruct (decide (0 <= i < Z.of_nat (length emojiArr))) as [Hi|Hi].
    + rewrite <- (Z2Nat.id i) in Henc |- * by lia. rewrite encMap_lookup in Henc.
      apply decMap_lookup_NoDup; assumption.
    + rewrite encMap_lookup_outside in Henc by lia. discriminate.
  - intros Hdec. apply decMap_lookup in Hdec as (k & -> & Hk & _).
    rewrite encMap_lookup. exact Hk.
Qed.

Lemma buildMaps_inverse_witness :
  (buildMaps BASE_EMO).1 !! 4 = Some (VString (lit "😃"))
  <-> (buildMaps BASE_EMO).2 !! VString (lit "😃") = Some 4.
Proof.
  apply (buildMaps_inverse BASE_EMO 4 (VString (lit "😃"))).
  apply BASE_EMO_alphabet.
Defined.

(** X2.  [emojiEncode] reads the first sixteen entries of the array and no
    other: it returns for the array what it returns for its first sixteen
    entries. *)
Theorem emojiEncode_first_sixteen (str : jsstring) (emojiArr : list value) :
  Forall is_code_unit str ->
  emojiEncode str emojiArr = emojiEncode str (take 16 emojiArr).
Proof.
  intros Hs. rewrite !emojiEncode_unfold. f_equal.
  pose proof (encode_bytes_units str Hs) as Hb.
  induction Hb as [|b bytes Hb _ IH]; [reflexivity|].
  cbn [map]. rewrite IH. f_equal.
  destruct (high_nibble b Hb) as [-> Hhi]. destruct (low_nibble b Hb) as [-> Hlo].
  rewrite !map_get_array_get by lia. unfold array_get.
  rewrite !lookup_take_lt by lia. reflexivity.
Qed.

Lemma emojiEncode_first_sixteen_witness :
  emojiEncode (lit "Hé") (BASE_EMO ++ [VString (lit "x")])
  = emojiEncode (lit "Hé") (take 16 (BASE_EMO ++ [VString (lit "x")])).
Proof.
  apply (emojiEncode_first_sixteen (lit "Hé") (BASE_EMO ++ [VString (lit "x")])).
  vm_compute. repeat constructor; discriminate.
Defined.



(** X4.  Under an alphabet [emojiEncode] writes two symbols for every byte
    of the string's UTF-8 encoding, the entry of the high nibble and then
    the entry of the low nibble, and the string it returns is well-formed
    text. *)
Theorem emojiEncode_symbols (emojiArr : list value) (str : jsstring) :
  is_alphabet emojiArr ->
  Forall is_code_unit str ->
  Forall2 (fun c n => emojiArr !! Z.to_nat n = Some (VString c))
          (spread (emojiEncode str emojiArr)) (nibbles_of (Utf8.encode str))
  /\ length (spread (emojiEncode str emojiArr)) = (2 * length (Utf8.encode str))%nat
  /\ well_formed (emojiEncode str emojiArr) = true.
Proof.
  intros Halpha Hs. pose proof (encode_bytes_units str Hs) as Hbytes.
  rewrite emojiEncode_unfold.
  destruct (encoded_symbols emojiArr (Utf8.encode str) Halpha Hbytes) as [H1 H2].
  split; [exact H1|]. split; [|exact H2].
  rewrite (Forall2_length _ _ _ H1). apply nibbles_of_length.
Qed.

Lemma emojiEncode_symbols_witness :
  Forall2 (fun c n => BASE_EMO !! Z.to_nat n = Some (VString c))
          (spread (emojiEncode (lit "Hé") BASE_EMO)) (nibbles_of (Utf8.encode (lit "Hé")))
  /\ length (spread (emojiEncode (lit "Hé") BASE_EMO))
     = (2 * length (Utf8.encode (lit "Hé")))%nat
  /\ well_formed (emojiEncode (lit "Hé") BASE_EMO) = true.
Proof.
  apply (emojiEncode_symbols BASE_EMO (lit "Hé")).
  - exact BASE_EMO_alphabet.
  - vm_compute. repeat constructor; discriminate.
Defined.

(** ** The generator, small arrays and the instance's set *)

(** X5.  Whatever the state of the generator, the number it returns is a
    fraction in [0, 1) over 4294967296, and the index the shuffle draws for
    position [i], [Math.floor(rnd() * (i + 1))], is one of [0 .. i], also
    when the product is too large to be exact: the swap never reads or
    writes outside the array. *)
Theorem random_index_bounds (a : Z) (i : nat) :
  0 <= (mulberry32_call a).1 < 2 ^ 32
  /\ (Z.to_nat (floor_mul (mulberry32_call a).1 (Z.of_nat i + 1)) <= i)%nat.
Proof.
  pose proof (mulberry32_call_range a) as Hk.
  split; [exact Hk | apply random_index_range, Hk].
Qed.

(** X6.  [seededShuffle] returns an array as long as the one it is given;
    an array of no or one element is returned as an equal copy, whatever
    the passphrase. *)
Theorem seededShuffle_length (h : heap) (array : ref) (pass : jsstring) (a : list value) :
  h !! array = Some a ->
  length (deref (seededShuffle array pass h).2 (seededShuffle array pass h).1) = length a
  /\ ((length a <= 1)%nat ->
      deref (seededShuffle array pass h).2 (seededShuffle array pass h).1 = a).
Proof.
  intros Harr. rewrite (seededShuffle_heap h array pass a Harr). cbn [fst snd].
  rewrite (deref_Some (h ++ [shuffled a pass]) (length h) (shuffled a pass))
    by (apply list_lookup_middle; reflexivity).
  split.
  - apply Permutation_length, shuffled_Permutation.
  - intros Hlen. unfold shuffled.
    replace (length a - 1)%nat with 0%nat by lia. reflexivity.
Qed.

Lemma seededShuffle_length_witness :
  length (deref (seededShuffle 0%nat (lit "pass") [[VString (lit "a")]]).2
                (seededShuffle 0%nat (lit "pass") [[VString (lit "a")]]).1)
  = length [VString (lit "a")]
  /\ ((length [VString (lit "a")] <= 1)%nat ->
      deref (seededShuffle 0%nat (lit "pass") [[VString (lit "a")]]).2
            (seededShuffle 0%nat (lit "pass") [[VString (lit "a")]]).1
      = [VString (lit "a")]).
Proof.
  apply (seededShuffle_length [[VString (lit "a")]] 0%nat (lit "pass") [VString (lit "a")]).
  reflexivity.
Defined.

(** X7.  An instance made without a passphrase, with [null] or with the
    empty string, holds a copy of [BASE_EMO] in its order, in an array of
    its own, and encodes as [emojiEncode] does with the base set. *)
Theorem falsy_passphrase_is_default (h : heap) (passphrase : option jsstring) :
  h !! BASE_EMO_ref = Some BASE_EMO ->
  passphrase = None \/ passphrase = Some [] ->
  deref (new_EmoCrypt passphrase h).2 (emojiSet (new_EmoCrypt passphrase h).1) = BASE_EMO
  /\ emojiSet (new_EmoCrypt passphrase h).1 <> BASE_EMO_ref
  /\ forall text,
       encode (new_EmoCrypt passphrase h).1 text (new_EmoCrypt passphrase h).2
       = emojiEncode text BASE_EMO.
Proof.
  intros Hbase Hp.
  destruct (new_EmoCrypt_heap h passphrase Hbase) as (set & -> & _ & Hset).
  assert (set = BASE_EMO) as -> by (destruct Hp as [-> | ->]; exact Hset).
  cbn [fst snd emojiSet]. unfold encode. cbn [emojiSet].
  pose proof (lookup_lt_Some _ _ _ Hbase) as Hlt.
  rewrite (deref_Some (h ++ [BASE_EMO]) (length h) BASE_EMO)
    by (apply list_lookup_middle; reflexivity).
  split; [reflexivity|]. split; [unfold BASE_EMO_ref in *; lia | reflexivity].
Qed.

Lemma falsy_passphrase_is_default_witness :
  deref (new_EmoCrypt (Some []) initial_heap).2
        (emojiSet (new_EmoCrypt (Some []) initial_heap).1) = BASE_EMO
  /\ emojiSet (new_EmoCrypt (Some []) initial_heap).1 <> BASE_EMO_ref
  /\ forall text,
       encode (new_EmoCrypt (Some []) initial_heap).1 text
              (new_EmoCrypt (Some []) initial_heap).2
       = emojiEncode text BASE_EMO.
Proof.
  apply (falsy_passphrase_is_default initial_heap (Some [])).
  - reflexivity.
  - right. reflexivity.
Defined.

(** X8.  [getEmojiSet] returns a new array with the slots of the
    instance's set; whatever is then written into the returned array, the
    instance's set keeps its slots. *)
Theorem getEmojiSet_is_a_copy (this : EmoCrypt) (h : heap) (set : list value) :
  h !! emojiSet this = Some set ->
  (getEmojiSet this h).1 <> emojiSet this
  /\ h !! (getEmojiSet this h).1 = None
  /\ deref (getEmojiSet this h).2 (getEmojiSet this h).1 = set
  /\ forall i v,
       deref (array_write (getEmojiSet this h).1 i v (getEmojiSet this h).2)
             (emojiSet this) = set.
Proof.
  intros Hset. unfold getEmojiSet. rewrite (array_slice_heap h _ set Hset). cbn [fst snd].
  pose proof (lookup_lt_Some _ _ _ Hset) as Hlt.
  split; [lia|]. split; [apply lookup_ge_None_2; lia|]. split.
  - apply deref_Some, list_lookup_middle. reflexivity.
  - intros i v. apply deref_Some. unfold array_write.
    rewrite list_lookup_insert_ne by lia. rewrite lookup_app_l by exact Hlt. exact Hset.
Qed.

Lemma getEmojiSet_is_a_copy_witness :
  (getEmojiSet {| emojiSet := BASE_EMO_ref; passphrase := None |} initial_heap).1
    <> BASE_EMO_ref
  /\ initial_heap
       !! (getEmojiSet {| emojiSet := BASE_EMO_ref; passphrase := None |} initial_heap).1
     = None
  /\ deref (getEmojiSet {| emojiSet := BASE_EMO_ref; passphrase := None |} initial_heap).2
           (getEmojiSet {| emojiSet := BASE_EMO_ref; passphrase := None |} initial_heap).1
     = BASE_EMO
  /\ forall i v,
       deref (array_write
                (getEmojiSet {| emojiSet := BASE_EMO_ref; passphrase := None |}
                   initial_heap).1 i v
                (getEmojiSet {| emojiSet := BASE_EMO_ref; passphrase := None |}
                   initial_heap).2)
             BASE_EMO_ref = BASE_EMO.
Proof.
  apply (getEmojiSet_is_a_copy {| emojiSet := BASE_EMO_ref; passphrase := None |}
           initial_heap BASE_EMO).
  reflexivity.
Defined.

(** X9.  [setPassphrase(p)] leaves the instance as [new EmoCrypt(p)] makes
    one: it records [p] and holds, in a new array, the set that the
    constructor derives from [p].  The array that the instance held before
    and [BASE_EMO] keep their slots. *)
Theorem setPassphrase_rederives (this : EmoCrypt) (newPassphrase : option jsstring)
    (h : heap) (old : list value) :
  h !! BASE_EMO_ref = Some BASE_EMO ->
  h !! emojiSet this = Some old ->
  passphrase (setPassphrase this newPassphrase h).1 = newPassphrase
  /\ emojiSet (setPassphrase this newPassphrase h).1 <> emojiSet this
  /\ (setPassphrase this newPassphrase h).2 !! emojiSet this = Some old
  /\ (setPassphrase this newPassphrase h).2 !! BASE_EMO_ref = Some BASE_EMO
  /\ deref (setPassphrase this newPassphrase h).2
           (emojiSet (setPassphrase this newPassphrase h).1)
     = deref (new_EmoCrypt newPassphrase h).2 (emojiSet (new_EmoCrypt newPassphrase h).1).
Proof.
  intros Hbase Hold. unfold setPassphrase, new_EmoCrypt.
  destruct (derive_set_heap h newPassphrase Hbase) as (set & -> & _ & _).
  cbn [fst snd emojiSet passphrase].
  pose proof (lookup_lt_Some _ _ _ Hbase) as Hlt0.
  pose proof (lookup_lt_Some _ _ _ Hold) as Hlt.
  split; [reflexivity|]. split; [lia|].
  split; [rewrite lookup_app_l by exact Hlt; exact Hold|].
  split; [rewrite lookup_app_l by exact Hlt0; exact Hbase | reflexivity].
Qed.

Lemma setPassphrase_rederives_witness :
  passphrase (setPassphrase {| emojiSet := BASE_EMO_ref; passphrase := None |}
                (Some (lit "key")) initial_heap).1 = Some (lit "key")
  /\ emojiSet (setPassphrase {| emojiSet := BASE_EMO_ref; passphrase := None |}
                 (Some (lit "key")) initial_heap).1 <> BASE_EMO_ref
  /\ (setPassphrase {| emojiSet := BASE_EMO_ref; passphrase := None |}
        (Some (lit "key")) initial_heap).2 !! BASE_EMO_ref = Some BASE_EMO
  /\ (setPassphrase {| emojiSet := BASE_EMO_ref; passphrase := None |}
        (Some (lit "key")) initial_heap).2 !! BASE_EMO_ref = Some BASE_EMO
  /\ deref (setPassphrase {| emojiSet := BASE_EMO_ref; passphrase := None |}
              (Some (lit "key")) initial_heap).2
           (emojiSet (setPassphrase {| emojiSet := BASE_EMO_ref; passphrase := None |}
                        (Some (lit "key")) initial_heap).1)
     = deref (new_EmoCrypt (Some (lit "key")) initial_heap).2
             (emojiSet (new_EmoCrypt (Some (lit "key")) initial_heap).1).
Proof.
  apply (setPassphrase_rederives {| emojiSet := BASE_EMO_ref; passphrase := None |}
           (Some (lit "key")) initial_heap BASE_EMO).
  - reflexivity.
  - reflexivity.
Defined.

(** ** Encrypting and decrypting again *)

Section EnvelopeRoundTrip.

Lemma aesEncrypt_runs max_args plaintext password iv salt ct :
  length iv = 12%nat -> length salt = 16%nat ->
  Forall is_byte iv -> Forall is_byte salt -> Forall is_byte ct ->
  (length (salt ++ iv ++ ct) <= max_args)%nat ->
  runs (aesEncrypt max_args plaintext password)
    [Random 12 iv; Random 16 salt;
     Encrypted (deriveKeyFromPassword password salt) iv (Utf8.encode plaintext) ct]
    (Ok (Base64.encode (salt ++ iv ++ ct))).
Proof.
  intros Hiv Hsalt Hivb Hsaltb Hctb Hfit. unfold aesEncrypt.
  apply runs_Random; [exact Hiv | exact Hivb |].
  apply runs_Random; [exact Hsalt | exact Hsaltb |].
  apply runs_Encrypt; [exact Hctb|].
  rewrite (aesEncrypt_tail max_args salt iv ct Hsaltb Hivb Hctb).
  destruct (decide (length (salt ++ iv ++ ct) <= max_args)%nat); [|contradiction].
  apply runs_Ret.
Qed.

Lemma encryptAndEncode_resolves max_args this text password (h : heap) iv salt ct :
  length iv = 12%nat -> length salt = 16%nat ->
  Forall is_byte iv -> Forall is_byte salt -> Forall is_byte ct ->
  (length (salt ++ iv ++ ct) <= max_args)%nat ->
  runs (encryptAndEncode max_args this text password h)
    [Random 12 iv; Random 16 salt;
     Encrypted (deriveKeyFromPassword password salt) iv
       (Utf8.encode (encode this text h)) ct]
    (Ok (lit "AESv1:" ++ Base64.encode (salt ++ iv ++ ct))).
Proof.
  intros Hiv Hsalt Hivb Hsaltb Hctb Hfit.
  pose proof (encryptAndEncode_runs max_args this text password h iv salt ct
                Hiv Hsalt Hivb Hsaltb Hctb) as H.
  destruct (decide (length (salt ++ iv ++ ct) <= max_args)%nat); [exact H | contradiction].
Qed.

(** What [aesDecrypt] does with the base64 of salt, nonce and ciphertext. *)
Lemma aesDecrypt_encoded password salt iv ct :
  length salt = 16%nat -> length iv = 12%nat ->
  Forall is_byte salt -> Forall is_byte iv -> Forall is_byte ct ->
  aesDecrypt (Base64.encode (salt ++ iv ++ ct)) password =
    SubtleDecrypt (deriveKeyFromPassword password salt) iv ct
      (fun pt => match pt with
                 | None => Throw OperationError
                 | Some pt => Ret (Utf8.decode pt)
                 end).
Proof.
  intros Hsalt Hiv Hsaltb Hivb Hctb.
  assert (Hall : Forall is_byte (salt ++ iv ++ ct)).
  { apply Forall_app. split; [exact Hsaltb|]. apply Forall_app. auto. }
  rewrite (aesDecrypt_split _ password _ (atob_encode _ Hall)). cbv zeta.
  rewrite (bytes_of_binary_string_bytes _ Hall).
  rewrite take_app_length' by (symmetry; exact Hsalt).
  rewrite drop_app_length' by (symmetry; exact Hsalt).
  rewrite take_app_length' by (symmetry; exact Hiv).
  replace 28%nat with (length salt + length iv)%nat by lia.
  rewrite drop_app_add, drop_app_length. reflexivity.
Qed.

(** The first code unit of an encoding is the first of a symbol. *)
Lemma emojiEncode_head (emojiArr : list value) (str : jsstring) :
  is_alphabet emojiArr -> Forall is_code_unit str ->
  VString [0xFEFF] ∉ emojiArr ->
  head (emojiEncode str emojiArr) <> Some 0xFEFF.
Proof.
  intros Halpha Hs Hno. pose proof (encode_bytes_units str Hs) as Hb.
  rewrite emojiEncode_unfold. destruct Hb as [|b bytes Hb _]; [discriminate|].
  cbn [map concat].
  destruct (high_nibble b Hb) as [-> Hhi]. destruct (low_nibble b Hb) as [-> Hlo].
  destruct (alphabet_nibble emojiArr Halpha _ Hhi) as (cp1 & [Hr1 Hs1] & Hget & _).
  destruct (alphabet_nibble emojiArr Halpha _ Hlo) as (cp2 & _ & -> & _).
  assert (Hin : VString (utf16_units cp1) ∈ emojiArr).
  { rewrite map_get_array_get in Hget by lia. unfold array_get in Hget.
    destruct (emojiArr !! Z.to_nat (b / 16)) as [v|] eqn:E; [|discriminate].
    cbn in Hget. subst v. apply list_elem_of_lookup. eauto. }
  rewrite Hget. cbn [add_joined]. rewrite <- !app_assoc.
  destruct (Z.lt_ge_cases cp1 0x10000) as [Hlt|Hge].
  - rewrite utf16_units_bmp in Hin |- * by lia. cbn [app head].
    intros [= ->]. contradiction.
  - destruct (utf16_units_supplementary cp1 ltac:(lia)) as (u & v & -> & Hu & Hv).
    cbn [app head]. intros [= ->]. lia.
Qed.

Lemma BASE_EMO_no_bom (set : list value) :
  set ≡ₚ BASE_EMO -> VString [0xFEFF] ∉ set.
Proof.
  intros Hp Hin. rewrite Hp in Hin. revert Hin.
  apply (bool_decide_unpack _). vm_compute. exact I.
Qed.

End EnvelopeRoundTrip.

(** X10.  [aesDecrypt] undoes [aesEncrypt]: whatever salt, nonce and
    ciphertext the platform produces, when they are no more bytes than the
    engine takes arguments [aesEncrypt] resolves to their base64, and
    [aesDecrypt] of that string asks, with the same password, for the
    decryption of that ciphertext under the same key and nonce; when the
    platform answers with the bytes that were encrypted it resolves to what
    the platform's decoder makes of them: the plaintext itself when it is
    well-formed text that does not begin with U+FEFF. *)
Theorem aesDecrypt_aesEncrypt (max_args : nat) (plaintext password : jsstring)
    (iv salt ct : list Z) :
  Forall is_code_unit plaintext ->
  length iv = 12%nat -> length salt = 16%nat ->
  Forall is_byte iv -> Forall is_byte salt -> Forall is_byte ct ->
  (length (salt ++ iv ++ ct) <= max_args)%nat ->
  runs (aesEncrypt max_args plaintext password)
    [Random 12 iv; Random 16 salt;
     Encrypted (deriveKeyFromPassword password salt) iv (Utf8.encode plaintext) ct]
    (Ok (Base64.encode (salt ++ iv ++ ct)))
  /\ runs (aesDecrypt (Base64.encode (salt ++ iv ++ ct)) password)
       [Decrypted (deriveKeyFromPassword password salt) iv ct
          (Some (Utf8.encode plaintext))]
       (Ok (Utf8.decode (Utf8.encode plaintext)))
  /\ (well_formed plaintext = true -> head plaintext <> Some 0xFEFF ->
      Utf8.decode (Utf8.encode plaintext) = plaintext).
Proof.
  intros Hs Hiv Hsalt Hivb Hsaltb Hctb Hfit.
  split; [apply aesEncrypt_runs; assumption|]. split; [|apply utf8_decode_encode].
  rewrite (aesDecrypt_encoded password salt iv ct) by assumption.
  apply runs_Decrypt.
  - intros bytes [= <-]. apply encode_bytes_units, Hs.
  - apply runs_Ret.
Qed.

Lemma aesDecrypt_aesEncrypt_witness :
  runs (aesEncrypt 100 (lit "Hé") (lit "pw"))
    [Random 12 (replicate 12 2); Random 16 (replicate 16 1);
     Encrypted (deriveKeyFromPassword (lit "pw") (replicate 16 1)) (replicate 12 2)
       (Utf8.encode (lit "Hé")) [3; 4; 5]]
    (Ok (Base64.encode (replicate 16 1 ++ replicate 12 2 ++ [3; 4; 5])))
  /\ runs (aesDecrypt (Base64.encode (replicate 16 1 ++ replicate 12 2 ++ [3; 4; 5]))
             (lit "pw"))
       [Decrypted (deriveKeyFromPassword (lit "pw") (replicate 16 1)) (replicate 12 2)
          [3; 4; 5] (Some (Utf8.encode (lit "Hé")))]
       (Ok (Utf8.decode (Utf8.encode (lit "Hé"))))
  /\ (well_formed (lit "Hé") = true -> head (lit "Hé") <> Some 0xFEFF ->
      Utf8.decode (Utf8.encode (lit "Hé")) = lit "Hé").
Proof.
  apply (aesDecrypt_aesEncrypt 100 (lit "Hé") (lit "pw")
           (replicate 12 2) (replicate 16 1) [3; 4; 5]).
  - vm_compute. repeat constructor; discriminate.
  - reflexivity.
  - reflexivity.
  - cbn [replicate]. repeat constructor; unfold is_byte; lia.
  - cbn [replicate]. repeat constructor; unfold is_byte; lia.
  - repeat constructor; unfold is_byte; lia.
  - cbn. lia.
Defined.

(** X11.  An instance decrypts what it has encrypted: for an instance made
    by the constructor, with or without a passphrase, and a well-formed
    text that does not begin with U+FEFF, when salt, nonce and ciphertext
    are no more bytes than the engine takes arguments [encryptAndEncode]
    resolves to a token, and [decryptAndDecode] of that token, with the same
    password, asks for the decryption of the same ciphertext under the same
    key and nonce; when the platform answers with the bytes that were
    encrypted it resolves to the text. *)
Theorem decryptAndDecode_encryptAndEncode (max_args : nat) (h : heap)
    (passphrase : option jsstring) (text password : jsstring) (iv salt ct : list Z) :
  h !! BASE_EMO_ref = Some BASE_EMO ->
  well_formed text = true -> head text <> Some 0xFEFF ->
  length iv = 12%nat -> length salt = 16%nat ->
  Forall is_byte iv -> Forall is_byte salt -> Forall is_byte ct ->
  (length (salt ++ iv ++ ct) <= max_args)%nat ->
  let this := (new_EmoCrypt passphrase h).1 in
  let h' := (new_EmoCrypt passphrase h).2 in
  let key := deriveKeyFromPassword password salt in
  let data := Utf8.encode (encode this text h') in
  let token := lit "AESv1:" ++ Base64.encode (salt ++ iv ++ ct) in
  runs (encryptAndEncode max_args this text password h')
    [Random 12 iv; Random 16 salt; Encrypted key iv data ct] (Ok token)
  /\ runs (decryptAndDecode this token password h')
       [Decrypted key iv ct (Some data)] (Ok text).
Proof.
  intros Hbase Hwf Hbom Hiv Hsalt Hivb Hsaltb Hctb Hfit. cbv zeta.
  pose proof (well_formed_units text Hwf) as Hunits.
  split; [apply encryptAndEncode_resolves; assumption|].
  pose proof (EmoCrypt_roundtrip h passphrase text Hbase Hwf Hbom) as Hround.
  cbv zeta in Hround.
  destruct (new_EmoCrypt_heap h passphrase Hbase) as (set & E & Hp & _).
  rewrite E in Hround |- *. cbn [fst snd] in Hround |- *.
  set (this := {| emojiSet := length h; passphrase := passphrase |}) in *.
  set (h' := h ++ [set]) in *.
  assert (Halpha : is_alphabet set).
  { apply (alphabet_Permutation BASE_EMO); [symmetry; exact Hp | exact BASE_EMO_alphabet]. }
  assert (Hset : deref h' (emojiSet this) = set).
  { apply deref_Some. subst h' this. cbn [emojiSet]. apply list_lookup_middle. reflexivity. }
  assert (Henc : Utf8.decode (Utf8.encode (encode this text h')) = encode this text h').
  { unfold encode. rewrite Hset. apply utf8_decode_encode.
    - apply (emojiEncode_well_formed set text Halpha Hunits).
    - apply emojiEncode_head; [exact Halpha | exact Hunits | apply BASE_EMO_no_bom, Hp]. }
  unfold decryptAndDecode. rewrite startsWith_AESv1, drop_AESv1. cbn [negb].
  rewrite (aesDecrypt_encoded password salt iv ct) by assumption. cbn [bind].
  apply runs_Decrypt.
  - intros bytes [= <-]. apply encode_bytes. unfold encode. rewrite Hset.
    apply (emojiEncode_well_formed set text Halpha Hunits).
  - cbn [bind]. rewrite Henc, Hround. apply runs_Ret.
Qed.

Lemma decryptAndDecode_encryptAndEncode_witness :
  let this := (new_EmoCrypt (Some (lit "key")) initial_heap).1 in
  let h' := (new_EmoCrypt (Some (lit "key")) initial_heap).2 in
  let key := deriveKeyFromPassword (lit "pw") (replicate 16 1) in
  let data := Utf8.encode (encode this (lit "Hé") h') in
  let token :=
    lit "AESv1:" ++ Base64.encode (replicate 16 1 ++ replicate 12 2 ++ [3; 4; 5]) in
  runs (encryptAndEncode 100 this (lit "Hé") (lit "pw") h')
    [Random 12 (replicate 12 2); Random 16 (replicate 16 1);
     Encrypted key (replicate 12 2) data [3; 4; 5]] (Ok token)
  /\ runs (decryptAndDecode this token (lit "pw") h')
       [Decrypted key (replicate 12 2) [3; 4; 5] (Some data)] (Ok (lit "Hé")).
Proof.
  apply (decryptAndDecode_encryptAndEncode 100 initial_heap (Some (lit "key"))
           (lit "Hé") (lit "pw") (replicate 12 2) (replicate 16 1) [3; 4; 5]).
  - reflexivity.
  - vm_compute. reflexivity.
  - vm_compute. discriminate.
  - reflexivity.
  - reflexivity.
  - cbn [replicate]. repeat constructor; unfold is_byte; lia.
  - cbn [replicate]. repeat constructor; unfold is_byte; lia.
  - repeat constructor; unfold is_byte; lia.
  - cbn. lia.
Defined.
